(** * Message synchronisation of the two-party chat client (src/App.jsx)

    A shallow embedding of the client's transport wrapper, profile
    loader, input bar, chat view and polling effects, followed by the
    properties of the synchronisation layer. *)

From Stdlib Require Import ZArith NArith String Ascii DecimalString DecimalZ.
From stdpp Require Import base decidable numbers option list.

Set Warnings "-register-all".
Local Open Scope Z_scope.

(** ** JavaScript values *)

(** A JavaScript string is a sequence of UTF-16 code units. *)
Abbreviation jsstring := (list N).

(** String literals of the source, which are all ASCII. *)
Definition js (s : string) : jsstring := N_of_ascii <$> list_ascii_of_string s.

(** [String(n)] for an integral Number below 10^21: plain decimal digits,
    with a leading minus sign for negatives.  [Date.now()] and
    [res.status] are such numbers. *)
Definition number_to_string (n : Z) : jsstring :=
  js (NilEmpty.string_of_int (Z.to_int n)).

(** Identifiers arrive in JSON bodies: they are strings or numbers. *)
Inductive Id :=
| IdStr (s : jsstring)
| IdNum (n : Z).

#[global] Instance Id_eq_dec : EqDecision Id.
Proof. solve_decision. Defined.

(** [a === b] on identifiers: same type and same value. *)
Definition strict_eq (a b : Id) : bool := bool_decide (a = b).

(** JSON documents, as far as the client inspects them. *)
Inductive Json :=
| JNull
| JBool (b : bool)
| JNum (n : Z)
| JStr (s : jsstring)
| JArr (items : list Json)
| JObj (fields : list (jsstring * Json)).

(** [!v] is false exactly for the truthy values. *)
Definition truthy (v : Json) : bool :=
  match v with
  | JNull => false
  | JBool b => b
  | JNum n => negb (n =? 0)
  | JStr s => match s with [] => false | _ => true end
  | JArr _ | JObj _ => true
  end.

(** [String.prototype.trim]: WhiteSpace and LineTerminator code points,
    all of which are single code units. *)
Definition is_white_space (c : N) : bool :=
  let c := Z.of_N c in
  (c =? 0x09) || (c =? 0x0A) || (c =? 0x0B) || (c =? 0x0C) || (c =? 0x0D)
  || (c =? 0x20) || (c =? 0xA0) || (c =? 0x1680)
  || ((0x2000 <=? c) && (c <=? 0x200A))
  || (c =? 0x2028) || (c =? 0x2029) || (c =? 0x202F) || (c =? 0x205F)
  || (c =? 0x3000) || (c =? 0xFEFF).

Fixpoint trimStart (s : jsstring) : jsstring :=
  match s with
  | [] => []
  | c :: s' => if is_white_space c then trimStart s' else s
  end.

Definition trim (s : jsstring) : jsstring :=
  reverse (trimStart (reverse (trimStart s))).

(** ** Data model *)

Record User := {
  user_id : Id;
  username : jsstring;
  avatar_color : jsstring
}.

Record Conversation := {
  conv_id : Id;
  participant_ids : list Id;
  last_message_preview : option jsstring
}.

Record Message := {
  msg_id : Id;
  msg_text : jsstring;
  msg_sender_id : Id;
  msg_conversation_id : Id
}.

#[global] Instance Message_eq_dec : EqDecision Message.
Proof. solve_decision. Defined.

Definition ids (l : list Message) : list Id := msg_id <$> l.

(** The calls the [api] object turns into requests. *)
Inductive ApiCall :=
| createUser (username avatar_color : jsstring)
| listUsers
| startConversation (user_a user_b : Id)
| myConversations (user : Id)
| sendMessage (conversation sender : Id) (text : jsstring)
| listMessages (conversation : Id) (limit : Z) (before : option jsstring).

(** ** Transport *)

Module Transport.

(** The second argument of [http]. *)
Record Options := {
  method : option jsstring;
  body : option jsstring;
  headers : option (list (jsstring * jsstring))
}.

Definition no_options : Options :=
  {| method := None; body := None; headers := None |}.

(** The argument of [fetch]. *)
Record Request := {
  url : jsstring;
  req_headers : list (jsstring * jsstring);
  req_method : option jsstring;
  req_body : option jsstring
}.

(** A [Response]: its status, what [res.text()] resolves with, and what
    [res.json()] resolves with ([None] when it rejects). *)
Record Response := {
  status : Z;
  res_text : jsstring;
  res_json : option Json
}.

(** [res.ok]: the status is in the range 200-299. *)
Definition ok (res : Response) : bool :=
  (200 <=? status res) && (status res <=? 299).

(** How a [fetch] promise settles. *)
Inductive FetchOutcome :=
| fetch_rejected (reason : jsstring)
| fetch_resolved (res : Response).

(** What an [http] call can throw. *)
Inductive Exn :=
| Error (message : jsstring)
| TypeError (reason : jsstring)
| SyntaxError.

(** The network: how the n-th [fetch] of the session settles, and the
    requests issued so far. *)
Record Net := {
  outcome : nat → FetchOutcome;
  issued : list Request
}.

(** Promise-returning code: it may throw, and it talks to the network. *)
Definition M (A : Type) : Type := Net → (Exn + A) * Net.

#[global] Instance M_ret : MRet M := λ A a net, (inr a, net).

#[global] Instance M_bind : MBind M := λ A B k m net,
  match m net with
  | (inl e, net') => (inl e, net')
  | (inr a, net') => k a net'
  end.

Definition throw {A : Type} (e : Exn) : M A := λ net, (inl e, net).

Definition fetch (req : Request) : M Response := λ net,
  let net' := {| outcome := outcome net; issued := issued net ++ [req] |} in
  match outcome net (length (issued net)) with
  | fetch_rejected reason => (inl (TypeError reason), net')
  | fetch_resolved res => (inr res, net')
  end.

Definition text (res : Response) : M jsstring := mret (res_text res).

Definition json (res : Response) : M Json :=
  match res_json res with
  | Some v => mret v
  | None => throw SyntaxError
  end.

(** [import.meta.env.VITE_BACKEND_URL || 'http://localhost:8000'] *)
Definition BASE_URL (VITE_BACKEND_URL : option jsstring) : jsstring :=
  match VITE_BACKEND_URL with
  | Some (c :: s) => c :: s
  | _ => js "http://localhost:8000"
  end.

(** The object literal passed to [fetch]: the spread of [options] comes
    last, so its own [headers] replace the merged ones. *)
Definition request (base path : jsstring) (options : Options) : Request :=
  {| url := base ++ path;
     req_headers :=
       match headers options with
       | Some h => h
       | None => [(js "Content-Type", js "application/json")]
       end;
     req_method := method options;
     req_body := body options |}.

Definition http (base path : jsstring) (options : Options) : M Json :=
  res ← fetch (request base path options);
  if negb (ok res)
  then t ← text res;
       throw (Error (match t with
                     | [] => js "Request failed: " ++ number_to_string (status res)
                     | _ => t
                     end))
  else json res.

End Transport.

(** ** Profile store and session start *)

Module Profile.

Section UseLocalUser.
(** [JSON.parse]; [None] when it throws. *)
Variable JSON_parse : jsstring → option Json.

(** The initialiser of the [user] state cell; [item] is what
    [localStorage.getItem('chat_user')] returned. *)
Definition useLocalUser (item : option jsstring) : Json :=
  let source := match item with
                | Some (c :: s) => c :: s
                | _ => js "null"
                end in
  match JSON_parse source with
  | Some v => v
  | None => JNull
  end.

Inductive Screen :=
| Onboard
| Home (me : Json).

Definition App (item : option jsstring) : Screen :=
  let user := useLocalUser item in
  if negb (truthy user) then Onboard else Home user.

End UseLocalUser.

End Profile.

(** ** ChatView *)

Module ChatView.

(** The component's two state cells, with the interval timers its effect
    has created ([None] once cleared, otherwise the conversation its
    [load] closure reads), the requests it has started and the alerts it
    has raised. *)
Record t := {
  messages : list Message;
  loading : bool;
  intervals : list (option Conversation);
  requests : list ApiCall;
  alerts : list jsstring
}.

Definition initial : t :=
  {| messages := []; loading := true; intervals := [];
     requests := []; alerts := [] |}.

Definition setMessages (f : list Message → list Message) (c : t) : t :=
  {| messages := f (messages c); loading := loading c;
     intervals := intervals c; requests := requests c; alerts := alerts c |}.

Definition setLoading (b : bool) (c : t) : t :=
  {| messages := messages c; loading := b;
     intervals := intervals c; requests := requests c; alerts := alerts c |}.

Definition setIntervals (f : list (option Conversation) → list (option Conversation))
    (c : t) : t :=
  {| messages := messages c; loading := loading c;
     intervals := f (intervals c); requests := requests c; alerts := alerts c |}.

Definition call (r : ApiCall) (c : t) : t :=
  {| messages := messages c; loading := loading c;
     intervals := intervals c; requests := requests c ++ [r]; alerts := alerts c |}.

Definition alert (msg : jsstring) (c : t) : t :=
  {| messages := messages c; loading := loading c;
     intervals := intervals c; requests := requests c; alerts := alerts c ++ [msg] |}.

(** [`tmp-${Date.now()}`] *)
Definition tmp_id (now : Z) : Id := IdStr (js "tmp-" ++ number_to_string now).

(** What the component renders: one keyed bubble per message. *)
Record Bubble := {
  key : Id;
  mine : bool;
  text : jsstring;
  avatarColor : jsstring
}.

Section Component.
Variables (me peer : User) (conversation : Conversation).

(** [load], up to its [await]: the request goes out. *)
Definition load_begin (c : t) : t :=
  call (listMessages (conv_id conversation) 100 None) c.

(** [load], after the [await] resolved with [msgs]; the scroll it
    schedules reads the list element only. *)
Definition load_resolved (msgs : list Message) (c : t) : t :=
  setLoading false (setMessages (λ _, msgs) c).

(** The effect keyed on [conversation.id]: an immediate [load], then
    [setInterval(load, 2000)]. *)
Definition effect (c : t) : t :=
  setIntervals (λ ivs, ivs ++ [Some conversation]) (load_begin c).

(** The object [send] builds first. *)
Definition optimistic (now : Z) (text : jsstring) : Message :=
  {| msg_id := tmp_id now; msg_text := text;
     msg_sender_id := user_id me;
     msg_conversation_id := conv_id conversation |}.

(** [send], up to its [await]; [now] is what [Date.now()] returned. *)
Definition send_begin (now : Z) (text : jsstring) (c : t) : t :=
  call (sendMessage (conv_id conversation) (user_id me) text)
       (setMessages (λ prev, prev ++ [optimistic now text]) c).

(** [send], after [api.sendMessage] resolved with [sent]. *)
Definition send_resolved (opt sent : Message) (c : t) : t :=
  setMessages
    (λ prev, (λ m, if strict_eq (msg_id m) (msg_id opt) then sent else m) <$> prev)
    c.

(** [send], after [api.sendMessage] rejected. *)
Definition send_rejected (opt : Message) (c : t) : t :=
  alert (js "Failed to send")
        (setMessages (λ prev, filter (λ m, msg_id m ≠ msg_id opt) prev) c).

Definition bubble (m : Message) : Bubble :=
  {| key := msg_id m;
     mine := strict_eq (msg_sender_id m) (user_id me);
     text := msg_text m;
     avatarColor := if strict_eq (msg_sender_id m) (user_id me)
                    then avatar_color me else avatar_color peer |}.

Definition view (c : t) : list Bubble := bubble <$> messages c.

End Component.

(** The rendered entries with a given text that are shown as mine. *)
Definition entries_of (t : jsstring) (v : list Bubble) : list Bubble :=
  filter (λ b, text b = t ∧ mine b = true) v.

(** The k-th interval timer fires: its [load] closure runs, unless the
    timer was cleared. *)
Definition tick (k : nat) (c : t) : t :=
  match intervals c !! k with
  | Some (Some conversation) => load_begin conversation c
  | _ => c
  end.

(** The cleanup of the effect that created the k-th timer:
    [clearInterval(iv)]. *)
Definition cleanup (k : nat) (c : t) : t :=
  setIntervals (λ ivs, <[k := None]> ivs) c.

End ChatView.

(** ** InputBar *)

Module InputBar.

(** [send]: the text cell and the parent's state after it ran; [onSend]
    is the parent's handler. *)
Definition send {S : Type} (onSend : jsstring → S → S)
    (text : jsstring) (parent : S) : jsstring * S :=
  let t := trim text in
  match t with
  | [] => (text, parent)
  | _ => ([], onSend t parent)
  end.

End InputBar.

(** ** Home: the conversation list and its polling effect *)

Module Home.

(** The [conversations] state cell; per run of the effect its [on] flag
    and whether its interval timer is still set; the requests started. *)
Record t := {
  conversations : list Conversation;
  on : list bool;
  intervals : list bool;
  requests : list ApiCall
}.

Definition initial : t :=
  {| conversations := []; on := []; intervals := []; requests := [] |}.

Section Component.
Variable me : User.

(** [load], up to the [then]. *)
Definition load_begin (h : t) : t :=
  {| conversations := conversations h; on := on h; intervals := intervals h;
     requests := requests h ++ [myConversations (user_id me)] |}.

(** The [then] callback of the [load] of effect run [k]:
    [if(on) setConversations(cs)]. *)
Definition load_resolved (k : nat) (cs : list Conversation) (h : t) : t :=
  match on h !! k with
  | Some true =>
      {| conversations := cs; on := on h; intervals := intervals h;
         requests := requests h |}
  | _ => h
  end.

(** The effect: [let on = true], an immediate [load], [setInterval]. *)
Definition effect (h : t) : t :=
  let h' := load_begin h in
  {| conversations := conversations h'; on := on h' ++ [true];
     intervals := intervals h' ++ [true]; requests := requests h' |}.

Definition tick (k : nat) (h : t) : t :=
  match intervals h !! k with
  | Some true => load_begin h
  | _ => h
  end.

(** The cleanup of effect run [k]: [on = false; clearInterval(iv)]. *)
Definition cleanup (k : nat) (h : t) : t :=
  {| conversations := conversations h; on := <[k := false]> (on h);
     intervals := <[k := false]> (intervals h); requests := requests h |}.

End Component.

End Home.

(** ** One open conversation and the Store Service, interleaved

    The client side of every step is the code of [ChatView]; the service
    side states what the client relies on: the service gives each stored
    message an identifier that no other stored message has and that is
    not of the local [tmp-] form, and a message listing is a window of
    what is stored, oldest first. *)

Module Sync.

(** Identifiers of the form the client makes up. *)
Definition is_local (i : Id) : bool :=
  match i with
  | IdStr s => bool_decide (take 4 s = js "tmp-")
  | IdNum _ => false
  end.

(** A [send] in progress: the [optimistic] object its continuation holds
    and the service's answer once there is one ([Some None]: failure). *)
Record Flight := {
  opt : Message;
  reply : option (option Message)
}.

(** The client and the service together: the chat view; the messages the
    service has stored for the conversation, oldest first; the sends in
    progress; the listing answers on their way to the client; the local
    identifiers made up so far; and, for each send the service stored,
    its local identifier with the message stored for it. *)
Record World := {
  chat : ChatView.t;
  store : list Message;
  flights : list Flight;
  polls : list (list Message);
  issued : list Id;
  paired : list (Id * Message)
}.

Inductive Event :=
| Send (now : Z) (text : jsstring)   (* [send(text)] runs up to its [await] *)
| Accept (i : nat) (sid : Id)        (* the service stores flight [i] as [sid] *)
| Refuse (i : nat)                   (* the request of flight [i] fails *)
| PeerMessage (m : Message)          (* the service stores a message of the peer *)
| Settle (i : nat)                   (* the answer of flight [i] reaches [send] *)
| Snapshot (k : nat)                 (* the service answers a listing *)
| Deliver (i : nat).                 (* listing answer [i] reaches [load] *)

Section Session.
Variables (me peer : User) (conversation : Conversation).

Definition initial : World :=
  {| chat := ChatView.initial; store := []; flights := []; polls := [];
     issued := []; paired := [] |}.

(** What the service stores for the message of a flight. *)
Definition stored_as (sid : Id) (m : Message) : Message :=
  {| msg_id := sid; msg_text := msg_text m;
     msg_sender_id := msg_sender_id m;
     msg_conversation_id := msg_conversation_id m |}.

Definition step (w : World) (e : Event) : option World :=
  match e with
  | Send now text =>
      (* the local identifier is one not used before; sends that reuse
         one are looked at on their own, outside this model *)
      if bool_decide (ChatView.tmp_id now ∉ issued w) then
        Some {| chat := ChatView.send_begin me conversation now text (chat w);
                store := store w;
                flights := flights w ++
                  [{| opt := ChatView.optimistic me conversation now text;
                      reply := None |}];
                polls := polls w;
                issued := issued w ++ [ChatView.tmp_id now];
                paired := paired w |}
      else None
  | Accept i sid =>
      (* the service stores the message of flight [i] as [sid] and answers *)
      match flights w !! i with
      | Some {| opt := o; reply := None |} =>
          if negb (is_local sid) && bool_decide (sid ∉ ids (store w)) then
            let sent := stored_as sid o in
            Some {| chat := chat w;
                    store := store w ++ [sent];
                    flights := <[i := {| opt := o; reply := Some (Some sent) |}]> (flights w);
                    polls := polls w;
                    issued := issued w;
                    paired := paired w ++ [(msg_id o, sent)] |}
          else None
      | _ => None
      end
  | Refuse i =>
      (* the request of flight [i] fails *)
      match flights w !! i with
      | Some {| opt := o; reply := None |} =>
          Some {| chat := chat w;
                  store := store w;
                  flights := <[i := {| opt := o; reply := Some None |}]> (flights w);
                  polls := polls w;
                  issued := issued w;
                  paired := paired w |}
      | _ => None
      end
  | PeerMessage m =>
      (* the service stores a message of the other participant *)
      if negb (is_local (msg_id m)) && bool_decide (msg_id m ∉ ids (store w)) then
        Some {| chat := chat w; store := store w ++ [m]; flights := flights w;
                polls := polls w; issued := issued w; paired := paired w |}
      else None
  | Settle i =>
      (* the answer of flight [i] reaches the continuation of [send] *)
      match flights w !! i with
      | Some {| opt := o; reply := Some r |} =>
          Some {| chat := match r with
                          | Some sent => ChatView.send_resolved o sent (chat w)
                          | None => ChatView.send_rejected o (chat w)
                          end;
                  store := store w;
                  flights := delete i (flights w);
                  polls := polls w;
                  issued := issued w;
                  paired := paired w |}
      | _ => None
      end
  | Snapshot k =>
      (* the service answers a listing with all but its [k] oldest messages *)
      Some {| chat := chat w; store := store w; flights := flights w;
              polls := polls w ++ [drop k (store w)];
              issued := issued w; paired := paired w |}
  | Deliver i =>
      (* the answer of a listing reaches the continuation of [load] *)
      match polls w !! i with
      | Some batch =>
          Some {| chat := ChatView.load_resolved batch (chat w);
                  store := store w;
                  flights := flights w;
                  polls := delete i (polls w);
                  issued := issued w;
                  paired := paired w |}
      | None => None
      end
  end.

Fixpoint run (w : World) (es : list Event) : option World :=
  match es with
  | [] => Some w
  | e :: es' =>
      match step w e with
      | Some w' => run w' es'
      | None => None
      end
  end.

End Session.

(** The rendered keys. *)
Definition keys (w : World) : list Id := ids (ChatView.messages (chat w)).

(** The local identifiers of the sends in progress. *)
Definition pending_ids (w : World) : list Id := (msg_id ∘ opt) <$> flights w.

(** What every reachable world satisfies. *)
Record consistent (w : World) : Prop := {
  store_nodup : NoDup (ids (store w));
  store_remote : ∀ i, i ∈ ids (store w) → is_local i = false;
  polls_stored : ∀ b, b ∈ polls w → b `sublist_of` store w;
  pending_nodup : NoDup (pending_ids w);
  pending_issued : ∀ i, i ∈ pending_ids w → i ∈ issued w ∧ is_local i = true;
  keys_nodup : NoDup (keys w);
  keys_known : ∀ i, i ∈ keys w → i ∈ ids (store w) ∨ i ∈ pending_ids w;
  answers_stored : ∀ f sent,
    f ∈ flights w → reply f = Some (Some sent) → msg_id sent ∈ ids (store w);
  answers_distinct : ∀ f g sent sent',
    f ∈ flights w → g ∈ flights w →
    reply f = Some (Some sent) → reply g = Some (Some sent') →
    msg_id sent = msg_id sent' → msg_id (opt f) = msg_id (opt g);
  answers_apart : ∀ f sent,
    f ∈ flights w → reply f = Some (Some sent) →
    msg_id (opt f) ∈ keys w → msg_id sent ∉ keys w;
  paired_known : ∀ o sent,
    (o, sent) ∈ paired w →
    o ∈ issued w ∧
    ((∃ f, f ∈ flights w ∧ msg_id (opt f) = o ∧ reply f = Some (Some sent))
     ∨ o ∉ pending_ids w);
  issued_local : ∀ i, i ∈ issued w → is_local i = true
}.

(** The events that apply a listing to the rendered list. *)
Definition is_Deliver (e : Event) : bool :=
  match e with
  | Deliver _ => true
  | _ => false
  end.

(** The message [o] is in the list, and it is the only entry with its
    identifier. *)
Definition shown_once (o : Message) (l : list Message) : Prop :=
  ∃ pre post,
    l = pre ++ [o] ++ post ∧ (msg_id o ∉ ids pre) ∧ (msg_id o ∉ ids post).

End Sync.

(** ** Sample data

    The session of the scenario: user 1 (alice) talks to user 2 (bob) in
    conversation 9. *)

Module Sample.

Definition alice : User :=
  {| user_id := IdNum 1; username := js "alice"; avatar_color := js "#6366F1" |}.

Definition bob : User :=
  {| user_id := IdNum 2; username := js "bob"; avatar_color := js "#10B981" |}.

Definition conv9 : Conversation :=
  {| conv_id := IdNum 9; participant_ids := [IdNum 1; IdNum 2];
     last_message_preview := None |}.

Definition conv10 : Conversation :=
  {| conv_id := IdNum 10; participant_ids := [IdNum 1; IdNum 3];
     last_message_preview := None |}.

(** A message as the service returns it. *)
Definition confirmed (i : Z) (sender : User) (t : string) : Message :=
  {| msg_id := IdNum i; msg_text := js t; msg_sender_id := user_id sender;
     msg_conversation_id := IdNum 9 |}.


(** The scenario as an interleaving: alice sends "hi", a listing is
    answered, the service stores the message as 101, the answer arrives. *)
Definition scenario : list Sync.Event :=
  [Sync.Send 1000 (js "hi"); Sync.Snapshot 0; Sync.Accept 0 (IdNum 101);
   Sync.Settle 0].

(** A listing answered before the send, and applied during it. *)
Definition stale_listing : list Sync.Event :=
  [Sync.Snapshot 0; Sync.Send 1000 (js "hi"); Sync.Deliver 0].

End Sample.

(** ** The api object *)

Module Api.
Import Transport.

Section Numbers.
(** [`${n}`] for an integral number from 10^21 on, where JavaScript
    switches to the exponent form. *)
Variable exponent_form : Z → jsstring.

(** [`${n}`] for an integral number: decimal digits below 10^21. *)
Definition String_of_number (n : Z) : jsstring :=
  if Z.abs n <? 10 ^ 21 then number_to_string n else exponent_form n.

(** [`${i}`] for an identifier. *)
Definition String_of_id (i : Id) : jsstring :=
  match i with
  | IdStr s => s
  | IdNum n => String_of_number n
  end.

End Numbers.

(** An identifier as a member of an object literal. *)
Definition Json_of_id (i : Id) : Json :=
  match i with
  | IdStr s => JStr s
  | IdNum n => JNum n
  end.

Section Api.
(** [JSON.stringify], and [toString] of a [URLSearchParams] holding the
    given pairs. *)
Variable JSON_stringify : Json → jsstring.
Variable URLSearchParams_toString : list (jsstring * jsstring) → jsstring.
Variable exponent_form : Z → jsstring.

(** [{ method: 'POST', body: JSON.stringify(o) }] *)
Definition post (o : Json) : Options :=
  {| method := Some (js "POST"); body := Some (JSON_stringify o);
     headers := None |}.

(** The path and the options each member of [api] hands to [http]. *)
Definition api (call : ApiCall) : jsstring * Options :=
  match call with
  | createUser username avatar_color =>
      (js "/users",
       post (JObj [(js "username", JStr username);
                   (js "avatar_color", JStr avatar_color)]))
  | listUsers => (js "/users", no_options)
  | startConversation user_a user_b =>
      (js "/conversations",
       post (JObj [(js "user_a", Json_of_id user_a);
                   (js "user_b", Json_of_id user_b)]))
  | myConversations user_id =>
      (js "/conversations/" ++ String_of_id exponent_form user_id, no_options)
  | sendMessage conversation_id sender_id text =>
      (js "/messages",
       post (JObj [(js "conversation_id", Json_of_id conversation_id);
                   (js "sender_id", Json_of_id sender_id);
                   (js "text", JStr text)]))
  | listMessages conversation_id limit before =>
      let qs := [(js "limit", String_of_number exponent_form limit)] in
      let qs := match before with
                | Some (c :: s) => qs ++ [(js "before", c :: s)]
                | _ => qs
                end in
      (js "/messages/" ++ String_of_id exponent_form conversation_id ++ js "?"
         ++ URLSearchParams_toString qs,
       no_options)
  end.


End Api.

End Api.

(** ** Avatar *)

Module Avatar.

(** [s.split(sep)] for a separator of one code unit. *)
Fixpoint split (sep : N) (s : jsstring) : list jsstring :=
  match s with
  | [] => [[]]
  | c :: s' =>
      if bool_decide (c = sep) then [] :: split sep s'
      else match split sep s' with
           | p :: ps => (c :: p) :: ps
           | [] => [[c]]
           end
  end.

(** [l.join('')] where the elements are code units or [undefined]. *)
Definition join (l : list (option N)) : jsstring :=
  l ≫= λ o, match o with Some c => [c] | None => [] end.

(** The initials, before [toUpperCase]: [name] is the prop, [None] when
    it is [undefined]. *)
Definition initials_of (name : option jsstring) : jsstring :=
  let n := match name with
           | Some (c :: s) => c :: s
           | _ => js "?"
           end in
  join (take 2 (head <$> split 32%N n)).

Section Avatar.
Variable toUpperCase : jsstring → jsstring.

Definition initials (name : option jsstring) : jsstring :=
  toUpperCase (initials_of name).

End Avatar.

End Avatar.

(** ** useLocalUser: the setter *)

Module LocalUser.

(** The [user] state cell and the [chat_user] item of [localStorage]. *)
Record t := {
  user : Json;
  chat_user : option jsstring
}.

Section LocalUser.
Variable JSON_parse : jsstring → option Json.
Variable JSON_stringify : Json → jsstring.

(** The first render of [App] on a page load. *)
Definition start (item : option jsstring) : t :=
  {| user := Profile.useLocalUser JSON_parse item; chat_user := item |}.

(** [save]: [setUser(u)], then [localStorage.setItem]. *)
Definition save (u : Json) (s : t) : t :=
  {| user := u; chat_user := Some (JSON_stringify u) |}.

(** What [App] renders from the state cell. *)
Definition screen (s : t) : Profile.Screen :=
  if negb (truthy (user s)) then Profile.Onboard else Profile.Home (user s).

(** Reloading the page: the state is rebuilt from the stored item. *)
Definition reload (s : t) : t := start (chat_user s).

End LocalUser.

End LocalUser.

(** ** Onboard *)

Module Onboard.

(** The state cells of the form, the requests started, the alerts raised
    and what [onDone] was called with. *)
Record t := {
  username : jsstring;
  color : jsstring;
  loading : bool;
  requests : list ApiCall;
  alerts : list jsstring;
  done : list Json
}.

Definition initial : t :=
  {| username := []; color := js "#6366F1"; loading := false;
     requests := []; alerts := []; done := [] |}.

Definition setUsername (s : jsstring) (o : t) : t :=
  {| username := s; color := color o; loading := loading o;
     requests := requests o; alerts := alerts o; done := done o |}.

Definition setColor (c : jsstring) (o : t) : t :=
  {| username := username o; color := c; loading := loading o;
     requests := requests o; alerts := alerts o; done := done o |}.

Definition setLoading (b : bool) (o : t) : t :=
  {| username := username o; color := color o; loading := b;
     requests := requests o; alerts := alerts o; done := done o |}.

(** [create], up to its [await]. *)
Definition create (o : t) : t :=
  match trim (username o) with
  | [] => o
  | name =>
      let o' := setLoading true o in
      {| username := username o'; color := color o'; loading := loading o';
         requests := requests o' ++ [createUser name (color o')];
         alerts := alerts o'; done := done o' |}
  end.

(** [create], after [api.createUser] resolved with [user]. *)
Definition create_resolved (user : Json) (o : t) : t :=
  setLoading false
    {| username := username o; color := color o; loading := loading o;
       requests := requests o; alerts := alerts o; done := done o ++ [user] |}.

(** [create], after [api.createUser] rejected. *)
Definition create_rejected (o : t) : t :=
  setLoading false
    {| username := username o; color := color o; loading := loading o;
       requests := requests o;
       alerts := alerts o
         ++ [js "Could not create user. Make sure backend is running."];
       done := done o |}.

(** The [disabled] attribute of the button. *)
Definition disabled (o : t) : bool :=
  loading o || match trim (username o) with [] => true | _ => false end.

(** What the user and the network can do to the form; an answer can only
    arrive for a request that has none yet. *)
Inductive Event :=
| Type_ (s : jsstring)
| Pick (c : jsstring)
| Click
| Resolved (user : Json)
| Rejected.

(** The form with the number of requests already answered. *)
Definition handle (w : t * nat) (e : Event) : option (t * nat) :=
  let '(o, answered) := w in
  match e with
  | Type_ s => Some (setUsername s o, answered)
  | Pick c => Some (setColor c o, answered)
  | Click => Some (if disabled o then o else create o, answered)
  | Resolved user =>
      if bool_decide (answered < length (requests o))%nat
      then Some (create_resolved user o, S answered) else None
  | Rejected =>
      if bool_decide (answered < length (requests o))%nat
      then Some (create_rejected o, S answered) else None
  end.

Fixpoint handle_all (w : t * nat) (es : list Event) : option (t * nat) :=
  match es with
  | [] => Some w
  | e :: es' =>
      match handle w e with
      | Some w' => handle_all w' es'
      | None => None
      end
  end.

End Onboard.

(** ** PeopleList *)

Module PeopleList.

(** The state cells, the [on] flag of each run of the effect and the
    requests started. *)
Record t := {
  people : list User;
  loading : bool;
  error : jsstring;
  on : list bool;
  requests : list ApiCall
}.

Definition initial : t :=
  {| people := []; loading := true; error := []; on := []; requests := [] |}.

Section Component.
Variable me : User.

(** The effect, up to the [then]. *)
Definition effect (p : t) : t :=
  {| people := people p; loading := loading p; error := error p;
     on := on p ++ [true]; requests := requests p ++ [listUsers] |}.

(** The [then] callback of effect run [k]. *)
Definition list_resolved (k : nat) (list : list User) (p : t) : t :=
  match on p !! k with
  | Some true =>
      {| people := filter (λ u, user_id u ≠ user_id me) list;
         loading := false; error := error p; on := on p;
         requests := requests p |}
  | _ => p
  end.

(** The [catch] callback. *)
Definition list_rejected (p : t) : t :=
  {| people := people p; loading := false;
     error := js "Failed to load people"; on := on p;
     requests := requests p |}.

(** The cleanup of effect run [k]. *)
Definition cleanup (k : nat) (p : t) : t :=
  {| people := people p; loading := loading p; error := error p;
     on := <[k := false]> (on p); requests := requests p |}.

End Component.

End PeopleList.

(** ** Home: navigation *)

Module HomeNav.

(** The values of the [stage] cell: ['list'], ['new'], ['chat']. *)
Inductive Stage :=
| stage_list
| stage_new
| stage_chat.

Record t := {
  stage : Stage;
  picked : option User;
  activeConv : option (User * Conversation);
  requests : list ApiCall;
  alerts : list jsstring
}.

Definition initial : t :=
  {| stage := stage_list; picked := None; activeConv := None;
     requests := []; alerts := [] |}.

Definition setStage (s : Stage) (n : t) : t :=
  {| stage := s; picked := picked n; activeConv := activeConv n;
     requests := requests n; alerts := alerts n |}.

Definition setPicked (p : User) (n : t) : t :=
  {| stage := stage n; picked := Some p; activeConv := activeConv n;
     requests := requests n; alerts := alerts n |}.

Definition setActiveConv (a : User * Conversation) (n : t) : t :=
  {| stage := stage n; picked := picked n; activeConv := Some a;
     requests := requests n; alerts := alerts n |}.

Definition call (r : ApiCall) (n : t) : t :=
  {| stage := stage n; picked := picked n; activeConv := activeConv n;
     requests := requests n ++ [r]; alerts := alerts n |}.

Definition alert (msg : jsstring) (n : t) : t :=
  {| stage := stage n; picked := picked n; activeConv := activeConv n;
     requests := requests n; alerts := alerts n ++ [msg] |}.

(** What [Home] returns. *)
Inductive Screen :=
| ChatScreen (peer : User) (conversation : Conversation)
| NewScreen
| ListScreen.

Definition render (n : t) : Screen :=
  match stage n, activeConv n with
  | stage_chat, Some (peer, conv) => ChatScreen peer conv
  | stage_new, _ => NewScreen
  | _, _ => ListScreen
  end.

Section Component.
Variable me : User.

(** [openWith], up to its [await]. *)
Definition openWith (peer : User) (n : t) : t :=
  call (startConversation (user_id me) (user_id peer)) (setPicked peer n).

Definition openWith_resolved (peer : User) (conv : Conversation) (n : t) : t :=
  setStage stage_chat (setActiveConv (peer, conv) n).

Definition openWith_rejected (n : t) : t :=
  alert (js "Could not open conversation") n.

(** [c.participant_ids.find(id => id !== me.id)]; [None] is [undefined]. *)
Definition peerId (c : Conversation) : option Id :=
  List.find (λ i, negb (strict_eq i (user_id me))) (participant_ids c).

(** The click handler of a conversation row, up to its [await]. *)
Definition click (c : Conversation) (n : t) : t := call listUsers n.

(** The click handler, after [api.listUsers] resolved with [users]. *)
Definition click_resolved (c : Conversation) (users : list User) (n : t) : t :=
  match List.find (λ u, bool_decide (Some (user_id u) = peerId c)) users with
  | None => alert (js "Peer not found") n
  | Some peer => setStage stage_chat (setActiveConv (peer, c) n)
  end.

Inductive Event :=
| OpenWith (peer : User)
| OpenWithResolved (peer : User) (conv : Conversation)
| OpenWithRejected
| Click (c : Conversation)
| ClickResolved (c : Conversation) (users : list User)
| Back
| NewMessage.

Definition handle (n : t) (e : Event) : t :=
  match e with
  | OpenWith peer => openWith peer n
  | OpenWithResolved peer conv => openWith_resolved peer conv n
  | OpenWithRejected => openWith_rejected n
  | Click c => click c n
  | ClickResolved c users => click_resolved c users n
  | Back => setStage stage_list n
  | NewMessage => setStage stage_new n
  end.

End Component.

End HomeNav.

(** ** Event sequences of the two polling components *)

Module ChatViewTrace.

(** What can happen to a mounted [ChatView]: its effect runs for the
    conversation of the current render, a timer fires, an effect is
    cleaned up, a listing or the answer of a send arrives, the user
    sends. *)
Inductive Event :=
| Effect (conversation : Conversation)
| Tick (k : nat)
| Cleanup (k : nat)
| Loaded (msgs : list Message)
| Send (conversation : Conversation) (now : Z) (text : jsstring)
| Sent (opt sent : Message)
| Failed (opt : Message).

Definition handle (me : User) (c : ChatView.t) (e : Event) : ChatView.t :=
  match e with
  | Effect conversation => ChatView.effect conversation c
  | Tick k => ChatView.tick k c
  | Cleanup k => ChatView.cleanup k c
  | Loaded msgs => ChatView.load_resolved msgs c
  | Send conversation now text => ChatView.send_begin me conversation now text c
  | Sent opt sent => ChatView.send_resolved opt sent c
  | Failed opt => ChatView.send_rejected opt c
  end.

End ChatViewTrace.

Module HomeTrace.

Inductive Event :=
| Effect
| Tick (k : nat)
| Cleanup (k : nat)
| Loaded (k : nat) (cs : list Conversation).

Definition handle (me : User) (h : Home.t) (e : Event) : Home.t :=
  match e with
  | Effect => Home.effect me h
  | Tick k => Home.tick me k h
  | Cleanup k => Home.cleanup k h
  | Loaded k cs => Home.load_resolved k cs h
  end.

End HomeTrace.


(** ** What the rendered list is made of *)

Module Grounded.
Import Sync.

(** Every rendered message is stored by the service or is the object of
    a send in progress; every answer and every listing on its way holds
    stored messages only. *)
Definition grounded (w : World) : Prop :=
  (∀ m, m ∈ ChatView.messages (chat w) →
        m ∈ store w ∨ ∃ f, f ∈ flights w ∧ opt f = m)
  ∧ (∀ f s, f ∈ flights w → reply f = Some (Some s) → s ∈ store w)
  ∧ (∀ b m, b ∈ polls w → m ∈ b → m ∈ store w).

End Grounded.

(** ** More sample data *)

Module Sample2.
Import Sample.

(** A [JSON.parse] and a [JSON.stringify] that agree on one document. *)
Definition parse_one (s : jsstring) : option Json :=
  if decide (s = js "null") then Some JNull
  else if decide (s = js "{}") then Some (JObj [])
  else None.

Definition stringify_one (v : Json) : jsstring := js "{}".

(** Typing a name with blank ends, clicking twice, getting the answer. *)
Definition onboarding : list Onboard.Event :=
  [Onboard.Type_ (js " ann "); Onboard.Click; Onboard.Click;
   Onboard.Resolved (JObj [])].

(** After alice's "hello" another send and the service's answer to the
    first: no listing is applied in between. *)
Definition busy : list Sync.Event :=
  [Sync.Send 1001 (js "again"); Sync.Accept 0 (IdNum 101)].


End Sample2.

(** A third user, and the listing that has all three. *)
Definition carol : User :=
  {| user_id := IdNum 3; username := js "carol"; avatar_color := js "#F59E0B" |}.

Definition everyone : list User := [Sample.alice; Sample.bob; carol].

(** * Properties *)

(** ** Strings and identifiers *)

Lemma js_inj (s1 s2 : string) : js s1 = js s2 → s1 = s2.
Proof.
  unfold js. intros H.
  rewrite <- (string_of_list_ascii_of_string s1),
          <- (string_of_list_ascii_of_string s2).
  f_equal. revert H.
  generalize (list_ascii_of_string s1) (list_ascii_of_string s2).
  induction l as [|a l IH]; intros [|b l'] H; simplify_eq/=; try done.
  f_equal; [|by apply IH].
  rewrite <- (ascii_N_embedding a), <- (ascii_N_embedding b). congruence.
Qed.

Lemma number_to_string_inj (a b : Z) :
  number_to_string a = number_to_string b → a = b.
Proof.
  unfold number_to_string. intros H%js_inj.
  apply DecimalZ.to_int_inj.
  assert (Some (Z.to_int a) = Some (Z.to_int b)) as Heq; [|congruence].
  rewrite <- !NilEmpty.isi. by rewrite H.
Qed.

(** Sends at different clock readings get different local identifiers. *)
Lemma tmp_id_inj (a b : Z) : ChatView.tmp_id a = ChatView.tmp_id b → a = b.
Proof.
  unfold ChatView.tmp_id. intros H. simplify_eq.
  by apply number_to_string_inj.
Qed.

Lemma tmp_id_local (now : Z) : Sync.is_local (ChatView.tmp_id now) = true.
Proof. reflexivity. Qed.

Lemma trimStart_blank (s : jsstring) :
  forallb is_white_space s = true → trimStart s = [].
Proof.
  induction s as [|c s IH]; simpl; [done|].
  intros [Hc Hs]%andb_prop. rewrite Hc. auto.
Qed.

Lemma trim_blank (s : jsstring) :
  forallb is_white_space s = true → trim s = [].
Proof. intros H. unfold trim. by rewrite (trimStart_blank s H). Qed.

(** What [trimStart] leaves starts with a character that is not white
    space. *)
Lemma trimStart_head (s : jsstring) :
  trimStart s = [] ∨ ∃ c r, trimStart s = c :: r ∧ is_white_space c = false.
Proof.
  induction s as [|c s IH]; simpl; [by left|].
  destruct (is_white_space c) eqn:Hc; [done|]. right. eauto.
Qed.

Lemma trimStart_nil (s : jsstring) :
  trimStart s = [] → forallb is_white_space s = true.
Proof.
  induction s as [|c s IH]; simpl; [done|].
  destruct (is_white_space c); [done|discriminate].
Qed.

(** Only blank texts trim to the empty string. *)
Lemma trim_nil (s : jsstring) : trim s = [] → forallb is_white_space s = true.
Proof.
  unfold trim. intros H. apply trimStart_nil.
  destruct (trimStart_head s) as [Hs|(c & r & Hs & Hc)]; [done|].
  rewrite Hs in H |- *. exfalso.
  apply (f_equal reverse) in H. rewrite reverse_involutive in H.
  apply trimStart_nil in H. apply Is_true_true, forallb_True in H.
  apply Forall_reverse in H. rewrite reverse_involutive in H.
  apply Forall_cons in H as [H _]. apply Is_true_true in H. congruence.
Qed.

(** ** The chat view: sending, confirming, rolling back *)

Section ChatViewFacts.
Import ChatView.
Variables (me peer : User) (conversation : Conversation).

Lemma replace_absent (o sent : Message) (l : list Message) :
  msg_id o ∉ ids l →
  (λ m, if strict_eq (msg_id m) (msg_id o) then sent else m) <$> l = l.
Proof.
  unfold ids, strict_eq. induction l as [|m l IH]; [done|].
  rewrite fmap_cons, not_elem_of_cons. intros [Hm Hl]. csimpl.
  rewrite bool_decide_eq_false_2 by congruence. by rewrite IH.
Qed.

Lemma filter_absent (o : Message) (l : list Message) :
  msg_id o ∉ ids l → filter (λ m, msg_id m ≠ msg_id o) l = l.
Proof.
  unfold ids. induction l as [|m l IH]; [done|].
  rewrite fmap_cons, not_elem_of_cons. intros [Hm Hl].
  rewrite filter_cons_True by congruence. by rewrite IH.
Qed.

Lemma bubble_optimistic (now : Z) (t : jsstring) :
  bubble me peer (optimistic me conversation now t)
  = {| key := tmp_id now; mine := true; text := t;
       avatarColor := avatar_color me |}.
Proof.
  unfold bubble, optimistic, strict_eq; simpl.
  by rewrite bool_decide_eq_true_2.
Qed.

(** Without a clash of local identifiers, a confirmed send puts the
    service's message where the pending entry was. *)
Lemma send_resolved_fresh (now : Z) (t : jsstring) (sent : Message) (c : ChatView.t) :
  tmp_id now ∉ ids (messages c) →
  messages (send_resolved (optimistic me conversation now t) sent
              (send_begin me conversation now t c))
  = messages c ++ [sent].
Proof.
  intros Hfresh. unfold send_resolved, send_begin; simpl.
  rewrite fmap_app, (replace_absent (optimistic me conversation now t)) by done.
  unfold strict_eq; simpl. by rewrite bool_decide_eq_true_2.
Qed.

(** Without a clash of local identifiers, a failed send restores the
    list it started from. *)
Lemma send_rejected_fresh (now : Z) (t : jsstring) (c : ChatView.t) :
  tmp_id now ∉ ids (messages c) →
  messages (send_rejected (optimistic me conversation now t)
              (send_begin me conversation now t c))
  = messages c.
Proof.
  intros Hfresh. unfold send_rejected, send_begin; simpl.
  rewrite filter_app, (filter_absent (optimistic me conversation now t)) by done.
  rewrite filter_cons_False, filter_nil by (simpl; tauto).
  by rewrite app_nil_r.
Qed.

(** Whatever the list, no entry with the identifier of a failed send is
    left. *)
Lemma send_rejected_removes (o : Message) (c : ChatView.t) :
  msg_id o ∉ ids (messages (send_rejected o c)).
Proof.
  unfold send_rejected, ids; simpl. intros (m & Hid & Hm)%list_elem_of_fmap.
  apply list_elem_of_filter in Hm as [Hne _]. congruence.
Qed.

End ChatViewFacts.

Section ChatViewClaims.
Import ChatView.
Variables (me peer : User) (conversation : Conversation).

(** C2 (amended).  Applying a batch replaces the whole rendered list: it
    becomes the batch, entry by entry in the order the service returned
    it, and an identifier is rendered afterwards exactly when the batch
    has it.  Pending entries are not kept. *)
Theorem batch_replaces_rendered_list (batch : list Message) (c : ChatView.t) :
  messages (load_resolved batch c) = batch
  ∧ view me peer (load_resolved batch c) = bubble me peer <$> batch
  ∧ ∀ i, i ∈ key <$> view me peer (load_resolved batch c) ↔ i ∈ ids batch.
Proof.
  split_and!; [done..|].
  intros i. unfold view, ids; simpl. by rewrite <- list_fmap_compose.
Qed.

(** C4.  A text that is empty or made of white space only is dropped by
    the input bar: the chat view is exactly what it was (no entry, no
    request, no alert) and the text cell keeps its content. *)
Theorem blank_send_is_noop (now : Z) (raw : jsstring) (c : ChatView.t) :
  forallb is_white_space raw = true →
  InputBar.send (send_begin me conversation now) raw c = (raw, c).
Proof. intros Hraw. unfold InputBar.send. by rewrite trim_blank. Qed.

(** A text with a character that is not white space does go out,
    trimmed: the pending entry is added and the request is issued. *)
Lemma nonblank_send_goes_out (now : Z) (raw : jsstring) (c : ChatView.t) :
  forallb is_white_space raw = false →
  InputBar.send (send_begin me conversation now) raw c
  = ([], send_begin me conversation now (trim raw) c).
Proof.
  intros Hraw. unfold InputBar.send.
  destruct (trim raw) as [|ch s] eqn:Ht; [|done].
  apply trim_nil in Ht. congruence.
Qed.

(** C8.  Applying the same batch twice gives the state, and so the
    rendered list, that applying it once gives. *)
Theorem load_resolved_idempotent (batch : list Message) (c : ChatView.t) :
  load_resolved batch (load_resolved batch c) = load_resolved batch c
  ∧ view me peer (load_resolved batch (load_resolved batch c))
    = view me peer (load_resolved batch c).
Proof. done. Qed.

End ChatViewClaims.

Section ChatViewRuns.
Import ChatView Sample.

(** C1, as stated, fails: a listing answered before the service had the
    message, and applied while the send is in flight, removes the pending
    entry; the successful answer then finds nothing to replace, and the
    rendered list has no entry for the message. *)
Lemma confirm_after_stale_batch_lost :
  view alice bob (send_begin alice conv9 1000 (js "hello") initial)
  = [{| key := tmp_id 1000; mine := true; text := js "hello";
        avatarColor := avatar_color alice |}]
  ∧ view alice bob
      (send_resolved (optimistic alice conv9 1000 (js "hello"))
         (confirmed 101 alice "hello")
         (load_resolved []
            (send_begin alice conv9 1000 (js "hello") initial)))
    = []
  ∧ length (entries_of (js "hello")
              (view alice bob
                 (send_resolved (optimistic alice conv9 1000 (js "hello"))
                    (confirmed 101 alice "hello")
                    (load_resolved []
                       (send_begin alice conv9 1000 (js "hello") initial)))))
    ≠ 1%nat.
Proof. split_and!; [reflexivity..|]. vm_compute. discriminate. Qed.

(** C2, as stated, fails: a batch applied while a send is in flight
    removes its pending entry. *)
Lemma pending_dropped_by_batch :
  tmp_id 1000 ∈ key <$> view alice bob (send_begin alice conv9 1000 (js "hi") initial)
  ∧ view alice bob
      (load_resolved [confirmed 100 bob "hey"]
         (send_begin alice conv9 1000 (js "hi") initial))
    = [bubble alice bob (confirmed 100 bob "hey")]
  ∧ tmp_id 1000 ∉ key <$> view alice bob
      (load_resolved [confirmed 100 bob "hey"]
         (send_begin alice conv9 1000 (js "hi") initial)).
Proof.
  split_and!.
  - apply list_elem_of_singleton. reflexivity.
  - reflexivity.
  - intros H%list_elem_of_singleton. discriminate H.
Qed.

Lemma blank_send_is_noop_witness :
  InputBar.send (send_begin alice conv9 1000) [32; 9; 160; 10]%N initial
  = ([32; 9; 160; 10]%N, initial).
Proof. apply (blank_send_is_noop alice conv9 1000). reflexivity. Defined.

End ChatViewRuns.

(** ** Local identifiers made from the clock *)

Section ClockClash.
Import ChatView Sample.

(** C7.  The local identifier is a function of the clock reading alone:
    two sends at one reading of [Date.now()] get the same identifier.
    Here both pending entries carry it, and the answer to the first send
    replaces both of them. *)
Theorem same_reading_same_local_id :
  msg_id (optimistic alice conv9 1000 (js "a"))
  = msg_id (optimistic alice conv9 1000 (js "b"))
  ∧ ids (messages (send_begin alice conv9 1000 (js "b")
                     (send_begin alice conv9 1000 (js "a") initial)))
    = [tmp_id 1000; tmp_id 1000]
  ∧ messages (send_resolved (optimistic alice conv9 1000 (js "a"))
                (confirmed 101 alice "a")
                (send_begin alice conv9 1000 (js "b")
                   (send_begin alice conv9 1000 (js "a") initial)))
    = [confirmed 101 alice "a"; confirmed 101 alice "a"].
Proof. split_and!; reflexivity. Qed.

(** C5.  With the clash above, the failure of the second send removes
    the pending entry of the first one too: the list before the second
    send held that entry, the list after the failure is empty. *)
Theorem failed_send_with_clashing_id :
  messages (send_begin alice conv9 1000 (js "a") initial)
  = [optimistic alice conv9 1000 (js "a")]
  ∧ messages (send_rejected (optimistic alice conv9 1000 (js "b"))
                (send_begin alice conv9 1000 (js "b")
                   (send_begin alice conv9 1000 (js "a") initial)))
    = [].
Proof. split; reflexivity. Qed.

End ClockClash.

(** ** Stopping the polling effects *)

Section Polling.
Variable me : User.

(** After its cleanup the conversation-list effect is silent: its timer
    starts no request and a late answer is dropped. *)
Lemma Home_stopped_is_silent (k : nat) (cs : list Conversation) (h : Home.t) :
  Home.tick me k (Home.cleanup k h) = Home.cleanup k h
  ∧ Home.load_resolved k cs (Home.cleanup k h) = Home.cleanup k h.
Proof.
  assert (∀ l : list bool, <[k := false]> l !! k ≠ Some true) as Hoff.
  { intros l. destruct (decide (k < length l)%nat).
    - by rewrite list_lookup_insert_eq.
    - by rewrite list_insert_ge, lookup_ge_None_2 by lia. }
  unfold Home.tick, Home.load_resolved, Home.cleanup; simpl. split.
  - destruct (<[k := false]> (Home.intervals h) !! k) as [[]|] eqn:E;
      [by apply Hoff in E|done..].
  - destruct (<[k := false]> (Home.on h) !! k) as [[]|] eqn:E;
      [by apply Hoff in E|done..].
Qed.

(** After its cleanup the message effect starts no request either. *)
Lemma ChatView_stopped_timer_is_silent (k : nat) (c : ChatView.t) :
  ChatView.tick k (ChatView.cleanup k c) = ChatView.cleanup k c.
Proof.
  unfold ChatView.tick, ChatView.cleanup; simpl.
  destruct (decide (k < length (ChatView.intervals c))%nat).
  - by rewrite list_lookup_insert_eq.
  - by rewrite list_insert_ge, lookup_ge_None_2 by lia.
Qed.

End Polling.

Section LateAnswer.
Import ChatView Sample.

(** C6.  The message effect does not drop a late answer.  The view opens
    on conversation 9, whose first listing is still in flight when the
    conversation changes to 10 (cleanup of the first effect, start of the
    second); the answer for conversation 9 then arrives and becomes the
    rendered list. *)
Theorem ChatView_late_answer_is_applied :
  intervals (effect conv10 (cleanup 0 (effect conv9 initial)))
  = [None; Some conv10]
  ∧ messages (effect conv10 (cleanup 0 (effect conv9 initial))) = []
  ∧ messages (load_resolved [confirmed 100 bob "hey"]
                (effect conv10 (cleanup 0 (effect conv9 initial))))
    = [confirmed 100 bob "hey"].
Proof. split_and!; reflexivity. Qed.

End LateAnswer.

(** ** Transport *)

Section TransportFacts.
Import Transport.
Variables (base path : jsstring) (options : Options).

(** C9 (amended).  [http] issues exactly one request.  When the answer is
    not successful it throws a plain [Error] whose message is the body
    text, or [Request failed: <status>] when the body text is empty; when
    the answer is successful it returns what [res.json()] gives. *)
Theorem http_contract (net : Net) (res : Response) :
  outcome net (length (issued net)) = fetch_resolved res →
  issued (http base path options net).2
  = issued net ++ [request base path options]
  ∧ (ok res = false →
     (http base path options net).1
     = inl (Error (match res_text res with
                   | [] => js "Request failed: " ++ number_to_string (status res)
                   | _ => res_text res
                   end)))
  ∧ (ok res = true → ∀ v, res_json res = Some v →
     (http base path options net).1 = inr v).
Proof.
  intros Hres. unfold http, mbind, M_bind, fetch. rewrite Hres.
  split_and!.
  - destruct (ok res); simpl.
    + unfold json. by destruct (res_json res).
    + done.
  - intros ->. done.
  - intros -> v Hv. simpl. unfold json. by rewrite Hv.
Qed.

(** A rejected [fetch] is passed on as it is, after the one request. *)
Lemma http_fetch_rejected (net : Net) (reason : jsstring) :
  outcome net (length (issued net)) = fetch_rejected reason →
  http base path options net
  = (inl (TypeError reason),
     {| outcome := outcome net;
        issued := issued net ++ [request base path options] |}).
Proof. intros H. unfold http, mbind, M_bind, fetch. by rewrite H. Qed.

End TransportFacts.

Section TransportRuns.
Import Transport.

Lemma http_contract_witness :
  (http (BASE_URL None) (js "/messages") no_options
     {| outcome := λ _, fetch_resolved
                          {| status := 503; res_text := []; res_json := None |};
        issued := [] |}).1
  = inl (Error (js "Request failed: 503")).
Proof.
  refine (proj1 (proj2 (http_contract (BASE_URL None) (js "/messages") no_options
                          {| outcome := λ _, fetch_resolved
                               {| status := 503; res_text := []; res_json := None |};
                             issued := [] |}
                          {| status := 503; res_text := []; res_json := None |}
                          _)) _); reflexivity.
Defined.

(** C9, as stated, fails: the error does not carry the status.  Answers
    with status 500 and with status 404 and the same body text make
    [http] throw the same value. *)
Lemma http_error_drops_status :
  (http (BASE_URL None) (js "/messages") no_options
     {| outcome := λ _, fetch_resolved
                          {| status := 500; res_text := js "boom"; res_json := None |};
        issued := [] |}).1
  = inl (Error (js "boom"))
  ∧ (http (BASE_URL None) (js "/messages") no_options
       {| outcome := λ _, fetch_resolved
                            {| status := 404; res_text := js "boom"; res_json := None |};
          issued := [] |}).1
    = inl (Error (js "boom")).
Proof. split; reflexivity. Qed.

End TransportRuns.

(** ** Session start *)

Section ProfileFacts.
Import Profile.
Variable JSON_parse : jsstring → option Json.

(** C10.  A stored profile that does not parse is treated as no stored
    profile: the user is [null] either way and the onboarding screen is
    shown. *)
Theorem unparsable_profile_is_absent (stored : jsstring) :
  JSON_parse (js "null") = Some JNull →
  JSON_parse stored = None →
  useLocalUser JSON_parse (Some stored) = JNull
  ∧ useLocalUser JSON_parse (Some stored) = useLocalUser JSON_parse None
  ∧ App JSON_parse (Some stored) = Onboard
  ∧ App JSON_parse None = Onboard.
Proof.
  intros Hnull Hbad.
  assert (useLocalUser JSON_parse None = JNull) as Habsent.
  { unfold useLocalUser. by rewrite Hnull. }
  assert (useLocalUser JSON_parse (Some stored) = JNull) as Hstored.
  { unfold useLocalUser. destruct stored as [|ch s].
    - by rewrite Hnull.
    - by rewrite Hbad. }
  unfold App. rewrite Habsent, Hstored. done.
Qed.

End ProfileFacts.

Lemma unparsable_profile_is_absent_witness :
  Profile.App (λ s, if decide (s = js "null") then Some JNull else None)
    (Some (js "{oops"))
  = Profile.Onboard.
Proof.
  refine (proj1 (proj2 (proj2 (unparsable_profile_is_absent
            (λ s, if decide (s = js "null") then Some JNull else None)
            (js "{oops") _ _)))); reflexivity.
Defined.

(** ** Interleavings of sends, answers and listings *)

Section ListFacts.
Context {A B : Type}.

Lemma elem_of_insert_inv (l : list A) (i : nat) (x y : A) :
  y ∈ <[i := x]> l → y = x ∨ y ∈ l.
Proof.
  intros (j & Hj)%list_elem_of_lookup.
  destruct (decide (i = j)) as [->|Hne].
  - destruct (decide (j < length l)%nat).
    + rewrite list_lookup_insert_eq in Hj by done. left. congruence.
    + rewrite list_insert_ge in Hj by lia. right. by eapply list_elem_of_lookup_2.
  - rewrite list_lookup_insert_ne in Hj by done.
    right. by eapply list_elem_of_lookup_2.
Qed.

Lemma elem_of_insert_keep (l : list A) (i : nat) (x y z : A) :
  l !! i = Some x → y ∈ l → y ≠ x → y ∈ <[i := z]> l.
Proof.
  intros Hi (j & Hj)%list_elem_of_lookup Hne.
  apply list_elem_of_lookup. exists j.
  rewrite list_lookup_insert_ne; [done|]. intros ->. congruence.
Qed.

Lemma elem_of_delete_inv (l : list A) (i : nat) (y : A) :
  y ∈ delete i l → y ∈ l.
Proof. intros Hy. eapply elem_of_sublist; [done|apply sublist_delete]. Qed.

Lemma elem_of_delete_keep (l : list A) (i : nat) (x y : A) :
  l !! i = Some x → y ∈ l → y ≠ x → y ∈ delete i l.
Proof.
  revert i. induction l as [|a l IH]; intros [|i] Hi Hy Hne; simplify_eq/=.
  - apply elem_of_cons in Hy as [?|?]; [done|done].
  - apply elem_of_cons in Hy as [->|Hy]; [left|right; eauto].
Qed.

Lemma NoDup_delete_fresh (f : A → B) (l : list A) (i : nat) (x : A) :
  NoDup (f <$> l) → l !! i = Some x → f x ∉ f <$> delete i l.
Proof.
  revert i. induction l as [|a l IH]; intros [|i] Hnd Hi; simplify_eq/=.
  - by apply NoDup_cons in Hnd as [? _].
  - apply NoDup_cons in Hnd as [Ha Hnd]. rewrite not_elem_of_cons. split.
    + intros Heq. apply Ha. rewrite <- Heq.
      apply list_elem_of_fmap_2. by eapply list_elem_of_lookup_2.
    + by apply IH.
Qed.

End ListFacts.

Section Interleavings.
Import Sync.
Variables (me : User) (conversation : Conversation).

Lemma ids_replace (o sent : Message) (l : list Message) :
  ids ((λ m, if strict_eq (msg_id m) (msg_id o) then sent else m) <$> l)
  = (λ k, if bool_decide (k = msg_id o) then msg_id sent else k) <$> ids l.
Proof.
  unfold ids. rewrite <- !list_fmap_compose. apply list_fmap_ext.
  intros _ m _. unfold strict_eq; simpl. by case_bool_decide.
Qed.

Lemma elem_of_ids_replace (o sent : Message) (l : list Message) (i : Id) :
  i ∈ ids ((λ m, if strict_eq (msg_id m) (msg_id o) then sent else m) <$> l) →
  (i = msg_id sent ∧ msg_id o ∈ ids l) ∨ (i ∈ ids l ∧ i ≠ msg_id o).
Proof.
  rewrite ids_replace. intros (k & -> & Hk)%list_elem_of_fmap.
  case_bool_decide; subst; auto.
Qed.

Lemma elem_of_ids_filter (o : Message) (l : list Message) (i : Id) :
  i ∈ ids (filter (λ m, msg_id m ≠ msg_id o) l) ↔ i ∈ ids l ∧ i ≠ msg_id o.
Proof.
  unfold ids. rewrite !list_elem_of_fmap. split.
  - intros (m & -> & [Hne Hm]%list_elem_of_filter). eauto.
  - intros [(m & -> & Hm) Hne]. exists m. split; [done|].
    by apply list_elem_of_filter.
Qed.

Lemma consistent_initial : consistent initial.
Proof.
  split; unfold keys, pending_ids; simpl; try apply NoDup_nil_2;
    repeat intros ?; repeat match goal with
    | H : _ ∈ [] |- _ => by apply not_elem_of_nil in H
    end.
Qed.

Lemma local_not_stored (w : World) (i : Id) :
  consistent w → is_local i = true → i ∉ ids (store w).
Proof. intros Hw Hi Hin. apply (store_remote w Hw) in Hin. congruence. Qed.

(** A rendered local identifier belongs to a send in progress. *)
Lemma rendered_local_is_pending (w : World) (i : Id) :
  consistent w → is_local i = true → i ∈ keys w → i ∈ pending_ids w.
Proof.
  intros Hw Hi Hin. destruct (keys_known w Hw i Hin) as [Hs|]; [|done].
  by apply local_not_stored in Hs.
Qed.

Lemma consistent_Send (w w' : World) (now : Z) (t : jsstring) :
  consistent w → step me conversation w (Send now t) = Some w' → consistent w'.
Proof.
  intros Hw Hstep. simpl in Hstep. case_bool_decide as Hfresh; simplify_eq.
  assert (ChatView.tmp_id now ∉ pending_ids w) as Hnp.
  { intros Hin. by apply (pending_issued w Hw) in Hin as [? _]. }
  assert (ChatView.tmp_id now ∉ keys w) as Hnk.
  { intros Hin. by apply Hnp, rendered_local_is_pending. }
  split; unfold keys, pending_ids, ids; simpl;
    rewrite ?fmap_app; simpl; fold (pending_ids w); fold (ids (store w));
    fold (ids (ChatView.messages (chat w))); fold (keys w).
  - apply Hw.
  - apply Hw.
  - apply Hw.
  - apply NoDup_app. split_and!; [apply Hw| |apply NoDup_singleton].
    intros i Hi ->%list_elem_of_singleton. done.
  - intros i [Hi| ->%list_elem_of_singleton]%elem_of_app.
    + apply (pending_issued w Hw) in Hi as [? ?]. split; [|done].
      apply elem_of_app. by left.
    + split; [|done]. apply elem_of_app. right. by apply list_elem_of_singleton.
  - apply NoDup_app. split_and!; [apply Hw| |apply NoDup_singleton].
    intros i Hi ->%list_elem_of_singleton. done.
  - intros i [Hi| ->%list_elem_of_singleton]%elem_of_app.
    + destruct (keys_known w Hw i Hi); [by left|right].
      apply elem_of_app. by left.
    + right. apply elem_of_app. right. by apply list_elem_of_singleton.
  - intros f sent [Hf| ->%list_elem_of_singleton]%elem_of_app Hr; [|done].
    by eapply (answers_stored w Hw).
  - intros f g sent sent'
      [Hf| ->%list_elem_of_singleton]%elem_of_app
      [Hg| ->%list_elem_of_singleton]%elem_of_app Hrf Hrg; try done.
    by eapply (answers_distinct w Hw).
  - intros f sent [Hf| ->%list_elem_of_singleton]%elem_of_app Hr; [|done].
    intros [Hin|Hin%list_elem_of_singleton]%elem_of_app.
    + intros [Hs|Hs%list_elem_of_singleton]%elem_of_app.
      * by eapply (answers_apart w Hw).
      * apply (answers_stored w Hw) in Hr; [|done].
        rewrite Hs in Hr. by apply local_not_stored in Hr.
    + exfalso. apply Hnp. rewrite <- Hin. unfold pending_ids.
      by apply (list_elem_of_fmap_2 (msg_id ∘ opt)).
  - intros o sent Hp. destruct (paired_known w Hw o sent Hp) as [Ho Hcase].
    split; [apply elem_of_app; by left|].
    destruct Hcase as [(f & Hf & Hid & Hr)|Hno].
    + left. exists f. split; [apply elem_of_app; by left|done].
    + right. intros [Hin| ->%list_elem_of_singleton]%elem_of_app; done.
  - intros i [Hi| ->%list_elem_of_singleton]%elem_of_app; [|done].
    by apply (issued_local w Hw).
Qed.

Lemma pending_ids_insert (w : World) (i : nat) (f f' : Flight) :
  flights w !! i = Some f → opt f = opt f' →
  (msg_id ∘ opt) <$> <[i := f']> (flights w) = pending_ids w.
Proof.
  intros Hi Ho. rewrite list_fmap_insert. apply list_insert_id.
  unfold pending_ids. rewrite list_lookup_fmap, Hi; simpl. by rewrite Ho.
Qed.

Lemma consistent_Accept (w w' : World) (i : nat) (sid : Id) :
  consistent w → step me conversation w (Accept i sid) = Some w' → consistent w'.
Proof.
  intros Hw Hstep. simpl in Hstep.
  destruct (flights w !! i) as [[o [r|]]|] eqn:Hi; simplify_eq.
  destruct (is_local sid) eqn:Hremote; simplify_eq/=.
  case_bool_decide as Hnew; simplify_eq/=.
  assert (sid ∉ keys w) as Hnk.
  { intros Hin. destruct (keys_known w Hw sid Hin) as [?|Hp]; [done|].
    apply (pending_issued w Hw) in Hp as [_ ?]. congruence. }
  split; unfold keys, pending_ids; simpl;
    rewrite ?(pending_ids_insert w i {| opt := o; reply := None |}) by done;
    fold (keys w).
  - unfold ids. rewrite fmap_app. apply NoDup_app.
    split_and!; [apply Hw| |apply NoDup_singleton].
    intros k Hk ->%list_elem_of_singleton. done.
  - unfold ids. rewrite fmap_app.
    intros k [Hk| ->%list_elem_of_singleton]%elem_of_app; [|done].
    by apply (store_remote w Hw).
  - intros b Hb. by apply sublist_inserts_r, (polls_stored w Hw).
  - apply Hw.
  - apply Hw.
  - apply Hw.
  - intros k Hk. destruct (keys_known w Hw k Hk); [left|by right].
    unfold ids. rewrite fmap_app. apply elem_of_app. by left.
  - unfold ids. rewrite fmap_app.
    intros f sent [->|Hf]%elem_of_insert_inv Hr; simplify_eq/=.
    + apply elem_of_app. right. by apply list_elem_of_singleton.
    + apply elem_of_app. left. by eapply (answers_stored w Hw).
  - intros f g sent sent' [->|Hf]%elem_of_insert_inv
      [->|Hg]%elem_of_insert_inv Hrf Hrg Heq; simplify_eq/=; try done.
    + exfalso. apply Hnew. by eapply (answers_stored w Hw).
    + exfalso. apply Hnew. by eapply (answers_stored w Hw).
    + by eapply (answers_distinct w Hw).
  - intros f sent [->|Hf]%elem_of_insert_inv Hr; simplify_eq/=; [done|].
    by eapply (answers_apart w Hw).
  - intros k sent [Hp|Hp%list_elem_of_singleton]%elem_of_app.
    + destruct (paired_known w Hw k sent Hp) as [Hk Hcase].
      split; [done|]. destruct Hcase as [(f & Hf & Hid & Hr)|Hno]; [left|by right].
      exists f. split; [|done].
      eapply elem_of_insert_keep; [done..|]. intros ->. simplify_eq/=.
    + simplify_eq. split.
      * apply (pending_issued w Hw). unfold pending_ids.
        apply (list_elem_of_fmap_2' _ _ {| opt := o; reply := None |});
          [by eapply list_elem_of_lookup_2|done].
      * left. exists {| opt := o; reply := Some (Some (stored_as sid o)) |}.
        split; [|done]. apply list_elem_of_lookup. exists i.
        apply list_lookup_insert_eq. by eapply lookup_lt_Some.
  - apply Hw.
Qed.

Lemma consistent_Refuse (w w' : World) (i : nat) :
  consistent w → step me conversation w (Refuse i) = Some w' → consistent w'.
Proof.
  intros Hw Hstep. simpl in Hstep.
  destruct (flights w !! i) as [[o [r|]]|] eqn:Hi; simplify_eq.
  split; unfold keys, pending_ids; simpl;
    rewrite ?(pending_ids_insert w i {| opt := o; reply := None |}) by done;
    fold (keys w); try apply Hw.
  - intros f sent [->|Hf]%elem_of_insert_inv Hr; simplify_eq/=.
    by eapply (answers_stored w Hw).
  - intros f g sent sent' [->|Hf]%elem_of_insert_inv
      [->|Hg]%elem_of_insert_inv Hrf Hrg Heq; simplify_eq/=.
    by eapply (answers_distinct w Hw).
  - intros f sent [->|Hf]%elem_of_insert_inv Hr; simplify_eq/=.
    by eapply (answers_apart w Hw).
  - intros k sent Hp. destruct (paired_known w Hw k sent Hp) as [Hk Hcase].
    split; [done|]. destruct Hcase as [(f & Hf & Hid & Hr)|Hno]; [left|by right].
    exists f. split; [|done].
    eapply elem_of_insert_keep; [done..|]. intros ->. simplify_eq/=.
Qed.

Lemma consistent_PeerMessage (w w' : World) (m : Message) :
  consistent w → step me conversation w (PeerMessage m) = Some w' → consistent w'.
Proof.
  intros Hw Hstep. simpl in Hstep.
  destruct (is_local (msg_id m)) eqn:Hremote; simplify_eq/=.
  case_bool_decide as Hnew; simplify_eq/=.
  split; unfold keys, pending_ids; simpl; fold (keys w); fold (pending_ids w);
    try apply Hw.
  - unfold ids. rewrite fmap_app. apply NoDup_app.
    split_and!; [apply Hw| |apply NoDup_singleton].
    intros k Hk ->%list_elem_of_singleton. done.
  - unfold ids. rewrite fmap_app.
    intros k [Hk| ->%list_elem_of_singleton]%elem_of_app; [|done].
    by apply (store_remote w Hw).
  - intros b Hb. by apply sublist_inserts_r, (polls_stored w Hw).
  - intros k Hk. destruct (keys_known w Hw k Hk); [left|by right].
    unfold ids. rewrite fmap_app. apply elem_of_app. by left.
  - intros f sent Hf Hr. unfold ids. rewrite fmap_app.
    apply elem_of_app. left. by eapply (answers_stored w Hw).
Qed.

Lemma consistent_Snapshot (w w' : World) (k : nat) :
  consistent w → step me conversation w (Snapshot k) = Some w' → consistent w'.
Proof.
  intros Hw Hstep. simplify_eq/=.
  split; unfold keys, pending_ids; simpl; fold (keys w); fold (pending_ids w);
    try apply Hw.
  intros b [Hb| ->%list_elem_of_singleton]%elem_of_app.
  - by apply (polls_stored w Hw).
  - apply sublist_drop.
Qed.

Lemma consistent_Deliver (w w' : World) (i : nat) :
  consistent w → step me conversation w (Deliver i) = Some w' → consistent w'.
Proof.
  intros Hw Hstep. simpl in Hstep.
  destruct (polls w !! i) as [batch|] eqn:Hi; simplify_eq.
  assert (ids batch `sublist_of` ids (store w)) as Hsub.
  { apply fmap_sublist, (polls_stored w Hw). by eapply list_elem_of_lookup_2. }
  split; unfold keys, pending_ids; simpl; fold (pending_ids w); try apply Hw.
  - intros b Hb%elem_of_delete_inv. by apply (polls_stored w Hw).
  - eapply sublist_NoDup; [apply Hw|done].
  - intros k Hk. left. by eapply elem_of_sublist.
  - intros f sent Hf Hr Hin. exfalso.
    eapply (local_not_stored w); [done| |by eapply elem_of_sublist].
    apply (pending_issued w Hw). unfold pending_ids.
    by apply (list_elem_of_fmap_2 (msg_id ∘ opt)).
Qed.

Lemma consistent_Settle (w w' : World) (i : nat) :
  consistent w → step me conversation w (Settle i) = Some w' → consistent w'.
Proof.
  intros Hw Hstep. simpl in Hstep.
  destruct (flights w !! i) as [[o [r|]]|] eqn:Hi; simplify_eq.
  pose proof (list_elem_of_lookup_2 _ _ _ Hi) as Hf0.
  assert (msg_id o ∉ (msg_id ∘ opt) <$> delete i (flights w)) as Hgone.
  { apply (NoDup_delete_fresh (msg_id ∘ opt) _ _ _ (pending_nodup w Hw) Hi). }
  assert (∀ f, f ∈ delete i (flights w) → f ∈ flights w ∧ msg_id (opt f) ≠ msg_id o)
    as Hrest.
  { intros f Hf. split; [by eapply elem_of_delete_inv|].
    intros Heq. apply Hgone. rewrite <- Heq.
    by apply (list_elem_of_fmap_2 (msg_id ∘ opt)). }
  assert (∀ k, k ∈ pending_ids w → k ≠ msg_id o →
               k ∈ (msg_id ∘ opt) <$> delete i (flights w)) as Hkeep.
  { intros k (f & -> & Hf)%list_elem_of_fmap Hne.
    apply (list_elem_of_fmap_2 (msg_id ∘ opt)).
    eapply elem_of_delete_keep; [done..|]. by intros ->. }
  assert (is_local (msg_id o) = true) as Hlocal.
  { apply (pending_issued w Hw). unfold pending_ids.
    by apply (list_elem_of_fmap_2' _ _ {| opt := o; reply := Some r |}). }
  assert (∀ k sent, (k, sent) ∈ paired w →
            k ∈ issued w ∧
            ((∃ f, f ∈ delete i (flights w) ∧ msg_id (opt f) = k
                   ∧ reply f = Some (Some sent))
             ∨ k ∉ (msg_id ∘ opt) <$> delete i (flights w))) as Hpaired.
  { intros k sent Hp. destruct (paired_known w Hw k sent Hp) as [Hk Hcase].
    split; [done|]. destruct Hcase as [(f & Hf & Hid & Hr)|Hno].
    - destruct (decide (k = msg_id o)) as [->|Hne]; [by right|left].
      exists f. split; [|done].
      eapply elem_of_delete_keep; [done..|]. intros ->. by simpl in Hid.
    - right. intros Hin. apply Hno. unfold pending_ids.
      rewrite list_fmap_delete in Hin. by eapply elem_of_delete_inv. }
  assert (NoDup ((msg_id ∘ opt) <$> delete i (flights w))) as Hnd.
  { eapply sublist_NoDup; [apply (pending_nodup w Hw)|].
    apply fmap_sublist, sublist_delete. }
  assert (∀ k, k ∈ (msg_id ∘ opt) <$> delete i (flights w) →
               k ∈ issued w ∧ is_local k = true) as Hiss.
  { intros k (f & -> & Hf)%list_elem_of_fmap. apply (pending_issued w Hw).
    apply (list_elem_of_fmap_2 (msg_id ∘ opt)). by apply Hrest. }
  destruct r as [sent|].
  - (* the request succeeded *)
    assert (msg_id sent ∈ ids (store w)) as Hstored.
    { by eapply (answers_stored w Hw). }
    split; unfold keys, pending_ids; simpl; try done; try apply Hw.
    + rewrite ids_replace. apply NoDup_fmap_2_strong; [|apply Hw].
      intros x y Hx Hy. repeat case_bool_decide; subst; try done.
      * intros Heq. exfalso.
        eapply (answers_apart w Hw); [done..|]. by rewrite Heq.
      * intros Heq. exfalso.
        eapply (answers_apart w Hw); [done..|]. by rewrite <- Heq.
    + intros k [[-> _]|[Hk Hne]]%elem_of_ids_replace; [by left|].
      destruct (keys_known w Hw k Hk); [by left|right]. by apply Hkeep.
    + intros f s Hf. by apply (answers_stored w Hw), Hrest.
    + intros f g s s' Hf Hg. by apply (answers_distinct w Hw); apply Hrest.
    + intros f s Hf Hr Hin. apply Hrest in Hf as [Hf Hne].
      apply elem_of_ids_replace in Hin as [[Heq _]|[Hin _]].
      { exfalso. eapply (local_not_stored w); [done| |exact Hstored].
        rewrite <- Heq. apply (pending_issued w Hw).
        by apply (list_elem_of_fmap_2 (msg_id ∘ opt)). }
      intros [[Heq _]|[Hs _]]%elem_of_ids_replace.
      * apply Hne.
        by apply (answers_distinct w Hw f {| opt := o; reply := Some (Some sent) |}
                    s sent).
      * by eapply (answers_apart w Hw).
  - (* the request failed *)
    split; unfold keys, pending_ids; simpl; try done; try apply Hw.
    + eapply sublist_NoDup; [apply (keys_nodup w Hw)|].
      apply fmap_sublist, sublist_filter.
    + intros k [Hk Hne]%elem_of_ids_filter.
      destruct (keys_known w Hw k Hk); [by left|right]. by apply Hkeep.
    + intros f s Hf. by apply (answers_stored w Hw), Hrest.
    + intros f g s s' Hf Hg. by apply (answers_distinct w Hw); apply Hrest.
    + intros f s Hf Hr [Hin _]%elem_of_ids_filter [Hs _]%elem_of_ids_filter.
      apply Hrest in Hf as [Hf _]. by eapply (answers_apart w Hw).
Qed.

Lemma consistent_step (w w' : World) (e : Event) :
  consistent w → step me conversation w e = Some w' → consistent w'.
Proof.
  destruct e;
    eauto using consistent_Send, consistent_Accept, consistent_Refuse,
      consistent_PeerMessage, consistent_Settle, consistent_Snapshot,
      consistent_Deliver.
Qed.

Lemma consistent_run (es : list Event) (w w' : World) :
  consistent w → run me conversation w es = Some w' → consistent w'.
Proof.
  revert w. induction es as [|e es IH]; intros w Hw Hrun; simplify_eq/=; [done|].
  destruct (step me conversation w e) as [w1|] eqn:Hstep; [|done].
  eauto using consistent_step.
Qed.

(** An answer replaces the one entry that has the local identifier. *)
Lemma replace_once (o sent : Message) (pre post : list Message) :
  msg_id o ∉ ids pre → msg_id o ∉ ids post →
  (λ m, if strict_eq (msg_id m) (msg_id o) then sent else m)
    <$> (pre ++ [o] ++ post)
  = pre ++ [sent] ++ post.
Proof.
  intros Hpre Hpost. rewrite !fmap_app.
  rewrite (replace_absent o sent pre), (replace_absent o sent post) by done.
  simpl. unfold strict_eq. by rewrite bool_decide_eq_true_2.
Qed.

Lemma run_app (es es' : list Event) (w : World) :
  run me conversation w (es ++ es')
  = match run me conversation w es with
    | Some w' => run me conversation w' es'
    | None => None
    end.
Proof.
  revert w. induction es as [|e es IH]; intros w; simpl; [done|].
  by destruct (step me conversation w e).
Qed.

Ltac invert_step H :=
  simpl in H;
  repeat match type of H with
         | (if ?b then _ else _) = _ => destruct b eqn:?
         | match ?x with _ => _ end = _ => destruct x eqn:?
         end;
  simplify_eq.

Lemma issued_step (w w' : World) (e : Event) (i : Id) :
  step me conversation w e = Some w' → i ∈ issued w → i ∈ issued w'.
Proof.
  intros Hstep Hi. destruct e; invert_step Hstep; simpl; try done.
  apply elem_of_app. by left.
Qed.

(** The service answers a send with what was sent. *)
Lemma answers_echo_step (w w' : World) (e : Event) :
  (∀ f sent, f ∈ flights w → reply f = Some (Some sent) →
     msg_text sent = msg_text (opt f)
     ∧ msg_sender_id sent = msg_sender_id (opt f)) →
  step me conversation w e = Some w' →
  ∀ f sent, f ∈ flights w' → reply f = Some (Some sent) →
    msg_text sent = msg_text (opt f)
    ∧ msg_sender_id sent = msg_sender_id (opt f).
Proof.
  intros Hw Hstep f sent. destruct e; invert_step Hstep; simpl;
    try by apply Hw.
  - intros [Hf| ->%list_elem_of_singleton]%elem_of_app; [by apply Hw|done].
  - intros [->|Hf]%elem_of_insert_inv; [|by apply Hw].
    simpl. by intros [= <-].
  - intros [->|Hf]%elem_of_insert_inv; [done|by apply Hw].
  - intros Hf%elem_of_delete_inv. by apply Hw.
Qed.

Lemma answers_echo_run (es : list Event) (w w' : World) :
  (∀ f sent, f ∈ flights w → reply f = Some (Some sent) →
     msg_text sent = msg_text (opt f)
     ∧ msg_sender_id sent = msg_sender_id (opt f)) →
  run me conversation w es = Some w' →
  ∀ f sent, f ∈ flights w' → reply f = Some (Some sent) →
    msg_text sent = msg_text (opt f)
    ∧ msg_sender_id sent = msg_sender_id (opt f).
Proof.
  revert w. induction es as [|e es IH]; intros w Hw Hrun; simplify_eq/=; [done|].
  destruct (step me conversation w e) as [w1|] eqn:Hstep; [|done].
  eauto using answers_echo_step.
Qed.

Lemma issued_run (es : list Event) (w w' : World) (i : Id) :
  run me conversation w es = Some w' → i ∈ issued w → i ∈ issued w'.
Proof.
  revert w. induction es as [|e es IH]; intros w Hrun Hi; simplify_eq/=; [done|].
  destruct (step me conversation w e) as [w1|] eqn:Hstep; [|done].
  eauto using issued_step.
Qed.

(** While no listing is applied, the pending entry of a send in progress
    stays in the list, as the only entry with its identifier. *)
Lemma pending_entry_kept_step (w w' : World) (e : Event) (o : Message) :
  consistent w →
  msg_id o ∈ issued w →
  (msg_id o ∈ pending_ids w → shown_once o (ChatView.messages (chat w))) →
  is_Deliver e = false →
  step me conversation w e = Some w' →
  msg_id o ∈ pending_ids w' → shown_once o (ChatView.messages (chat w')).
Proof.
  intros Hw Hiss Hshown Hnd Hstep.
  assert (is_local (msg_id o) = true) as Hlocal by by apply (issued_local w Hw).
  destruct e as [now t|i sid|i|m0|i|k|i]; [| | | | | |done]; simpl in Hstep.
  - (* Send *)
    case_bool_decide as Hfresh; simplify_eq.
    unfold pending_ids; simpl. rewrite fmap_app.
    intros [Hp|Heq%list_elem_of_singleton]%elem_of_app.
    + destruct (Hshown Hp) as (pre & post & -> & Hpre & Hpost).
      exists pre, (post ++ [ChatView.optimistic me conversation now t]).
      split_and!; [by rewrite <- !app_assoc|done|].
      unfold ids. rewrite fmap_app.
      intros [?|Hin%list_elem_of_singleton]%elem_of_app; [done|].
      simpl in Hin. by rewrite Hin in Hiss.
    + simpl in Heq. by rewrite Heq in Hiss.
  - (* Accept *)
    destruct (flights w !! i) as [[o1 [r|]]|] eqn:Hi; simplify_eq.
    destruct (negb (is_local sid) && bool_decide (sid ∉ ids (store w)));
      simplify_eq.
    unfold pending_ids; simpl.
    rewrite (pending_ids_insert w i {| opt := o1; reply := None |}) by done.
    apply Hshown.
  - (* Refuse *)
    destruct (flights w !! i) as [[o1 [r|]]|] eqn:Hi; simplify_eq.
    unfold pending_ids; simpl.
    rewrite (pending_ids_insert w i {| opt := o1; reply := None |}) by done.
    apply Hshown.
  - (* PeerMessage *)
    destruct (negb (is_local (msg_id m0)) && bool_decide (msg_id m0 ∉ ids (store w)));
      simplify_eq.
    apply Hshown.
  - (* Settle *)
    destruct (flights w !! i) as [[o1 [r|]]|] eqn:Hi; simplify_eq.
    unfold pending_ids; simpl. intros Hp.
    pose proof (NoDup_delete_fresh (msg_id ∘ opt) _ _ _ (pending_nodup w Hw) Hi)
      as Hgone; simpl in Hgone.
    pose proof (list_elem_of_lookup_2 _ _ _ Hi) as Hf0.
    assert (msg_id o ∈ pending_ids w) as Hp0.
    { unfold pending_ids. rewrite list_fmap_delete in Hp.
      by eapply elem_of_delete_inv. }
    assert (msg_id o ≠ msg_id o1) as Hne.
    { intros Heq. apply Hgone. by rewrite <- Heq. }
    destruct (Hshown Hp0) as (pre & post & Hl & Hpre & Hpost).
    destruct r as [sent|]; simpl; rewrite Hl.
    + assert (is_local (msg_id sent) = false) as Hremote.
      { apply (store_remote w Hw). by eapply (answers_stored w Hw). }
      exists ((λ m, if strict_eq (msg_id m) (msg_id o1) then sent else m) <$> pre),
        ((λ m, if strict_eq (msg_id m) (msg_id o1) then sent else m) <$> post).
      rewrite !fmap_app; simpl. unfold strict_eq at 2.
      rewrite bool_decide_eq_false_2 by done.
      split_and!; [done| |];
        intros [[Heq _]|[? _]]%elem_of_ids_replace; try done; congruence.
    + exists (filter (λ m, msg_id m ≠ msg_id o1) pre),
        (filter (λ m, msg_id m ≠ msg_id o1) post).
      rewrite !filter_app, filter_cons_True, filter_nil by done.
      split_and!; [done| |]; by intros [? _]%elem_of_ids_filter.
  - (* Snapshot *)
    simplify_eq. apply Hshown.
Qed.

Lemma pending_entry_kept_run (es : list Event) (w w' : World) (o : Message) :
  consistent w →
  msg_id o ∈ issued w →
  (msg_id o ∈ pending_ids w → shown_once o (ChatView.messages (chat w))) →
  forallb (λ e, negb (is_Deliver e)) es = true →
  run me conversation w es = Some w' →
  msg_id o ∈ pending_ids w' → shown_once o (ChatView.messages (chat w')).
Proof.
  revert w. induction es as [|e es IH]; intros w Hw Hiss Hshown Hnd Hrun;
    simplify_eq/=; [done|].
  apply andb_prop in Hnd as [He%negb_true_iff Hnd].
  destruct (step me conversation w e) as [w1|] eqn:Hstep; [|done].
  apply (IH w1); eauto using consistent_step, issued_step, pending_entry_kept_step.
Qed.

(** A local identifier that was made up and is not rendered does not
    come back. *)
Lemma absent_stays_absent (w w' : World) (e : Event) (i : Id) :
  consistent w → i ∈ issued w → i ∉ keys w →
  step me conversation w e = Some w' → i ∉ keys w'.
Proof.
  intros Hw Hiss Habs Hstep.
  assert (is_local i = true) as Hlocal by by apply (issued_local w Hw).
  destruct e as [now t|j sid|j|m0|j|k|j]; simpl in Hstep.
  - case_bool_decide as Hfresh; simplify_eq.
    unfold keys, ids; simpl. rewrite fmap_app.
    intros [?|Heq%list_elem_of_singleton]%elem_of_app; [done|].
    simpl in Heq. by rewrite Heq in Hiss.
  - destruct (flights w !! j) as [[o1 [r|]]|]; simplify_eq.
    by destruct (negb (is_local sid) && bool_decide (sid ∉ ids (store w)));
      simplify_eq.
  - by destruct (flights w !! j) as [[o1 [r|]]|]; simplify_eq.
  - by destruct (negb (is_local (msg_id m0))
                 && bool_decide (msg_id m0 ∉ ids (store w))); simplify_eq.
  - destruct (flights w !! j) as [[o1 [r|]]|] eqn:Hj; simplify_eq.
    unfold keys; simpl. destruct r as [sent|]; simpl.
    + intros [[Heq _]|[? _]]%elem_of_ids_replace; [|done].
      eapply (local_not_stored w); [done..|]. rewrite Heq.
      eapply (answers_stored w Hw); [by eapply list_elem_of_lookup_2|done].
    + by intros [? _]%elem_of_ids_filter.
  - by simplify_eq.
  - destruct (polls w !! j) as [batch|] eqn:Hj; simplify_eq.
    unfold keys; simpl. intros Hin. eapply (local_not_stored w); [done..|].
    eapply elem_of_sublist; [exact Hin|].
    apply fmap_sublist, (polls_stored w Hw). by eapply list_elem_of_lookup_2.
Qed.

Lemma absent_after_listing (es : list Event) (w w' : World) (i : Id) :
  consistent w → i ∈ issued w →
  i ∉ keys w ∨ existsb is_Deliver es = true →
  run me conversation w es = Some w' → i ∉ keys w'.
Proof.
  revert w. induction es as [|e es IH]; intros w Hw Hiss Hcase Hrun;
    simplify_eq/=.
  { by destruct Hcase. }
  destruct (step me conversation w e) as [w1|] eqn:Hstep; [|done].
  apply (IH w1); eauto using consistent_step, issued_step.
  destruct Hcase as [Habs|Hex].
  - left. eauto using absent_stays_absent.
  - destruct e as [| | | | | |j]; simpl in Hex; try (by right).
    left. simpl in Hstep.
    destruct (polls w !! j) as [batch|] eqn:Hj; simplify_eq.
    unfold keys; simpl. intros Hin.
    eapply (local_not_stored w); [done|by apply (issued_local w Hw)|].
    eapply elem_of_sublist; [exact Hin|].
    apply fmap_sublist, (polls_stored w Hw). by eapply list_elem_of_lookup_2.
Qed.

End Interleavings.

Section InterleavingClaims.
Import Sync.
Variables (me : User) (conversation : Conversation).

(** C1 (amended).  Take any interleaving in which sends take local
    identifiers not used before, the service stores messages under
    identifiers that are unique and not of the local form, and listings
    are windows of what is stored.  Right after a send, the rendered list
    is the previous one followed by one entry with the local identifier,
    the text sent and [mine = true].  When its answer later arrives with
    the confirmed message, after any other sends, answers and failures:
    the confirmed message has the text sent and me as its sender; if no
    listing was applied between the send and the answer, the pending
    entry was still rendered, the confirmed message takes its place with
    every other entry unchanged, it is the only entry with its
    identifier, and no entry with the local identifier is left; if a
    listing was applied in between, the pending entry was already gone
    and the answer changes nothing in the list. *)
Theorem send_echo_then_confirm
    (peer : User) (es1 es2 : list Event) (w1 w2 w3 : World)
    (now : Z) (t : jsstring) :
  run me conversation initial es1 = Some w1 →
  step me conversation w1 (Send now t) = Some w2 →
  run me conversation w2 es2 = Some w3 →
  ChatView.view me peer (chat w2)
  = ChatView.view me peer (chat w1)
    ++ [{| ChatView.key := ChatView.tmp_id now; ChatView.mine := true;
           ChatView.text := t; ChatView.avatarColor := avatar_color me |}]
  ∧ ∀ i sent w4,
      flights w3 !! i
      = Some {| opt := ChatView.optimistic me conversation now t;
                reply := Some (Some sent) |} →
      step me conversation w3 (Settle i) = Some w4 →
      msg_text sent = t
      ∧ msg_sender_id sent = user_id me
      ∧ (forallb (λ e, negb (is_Deliver e)) es2 = true →
         ∃ pre post,
           ChatView.messages (chat w3)
           = pre ++ [ChatView.optimistic me conversation now t] ++ post
           ∧ ChatView.messages (chat w4) = pre ++ [sent] ++ post
           ∧ ChatView.view me peer (chat w4)
             = (ChatView.bubble me peer <$> pre)
               ++ [{| ChatView.key := msg_id sent; ChatView.mine := true;
                      ChatView.text := t;
                      ChatView.avatarColor := avatar_color me |}]
               ++ (ChatView.bubble me peer <$> post)
           ∧ (msg_id sent ∉ ids pre)
           ∧ (msg_id sent ∉ ids post)
           ∧ (ChatView.tmp_id now ∉ keys w4))
      ∧ (existsb is_Deliver es2 = true →
         (ChatView.tmp_id now ∉ keys w3)
         ∧ ChatView.messages (chat w4) = ChatView.messages (chat w3)).
Proof.
  intros Hrun1 Hsend Hrun2.
  pose proof (consistent_run me conversation es1 _ _ consistent_initial Hrun1) as Hw1.
  pose proof (consistent_step me conversation _ _ _ Hw1 Hsend) as Hw2.
  pose proof (consistent_run me conversation es2 _ _ Hw2 Hrun2) as Hw3.
  simpl in Hsend. case_bool_decide as Hfresh; [|done].
  injection Hsend as <-.
  set (o := ChatView.optimistic me conversation now t) in *.
  assert (ChatView.tmp_id now ∉ keys w1) as Hnk.
  { intros Hin. apply rendered_local_is_pending in Hin; [|done..].
    by apply (pending_issued w1 Hw1) in Hin as [? _]. }
  split.
  { unfold ChatView.view, ChatView.send_begin; simpl.
    by rewrite fmap_app, <- (bubble_optimistic me peer conversation). }
  intros i sent w4 Hi Hsettle.
  pose proof (list_elem_of_lookup_2 _ _ _ Hi) as Hf.
  simpl in Hsettle. rewrite Hi in Hsettle. injection Hsettle as <-.
  assert (msg_text sent = t ∧ msg_sender_id sent = user_id me) as [Htext Hsender].
  { assert (∀ f s, f ∈ flights w1 → reply f = Some (Some s) →
              msg_text s = msg_text (opt f)
              ∧ msg_sender_id s = msg_sender_id (opt f)) as Hecho1.
    { apply (answers_echo_run me conversation es1 initial); [|done].
      by intros f s ?%not_elem_of_nil. }
    refine (answers_echo_run me conversation es2 _ w3 _ Hrun2 _ sent Hf eq_refl).
    simpl. intros f s [?| ->%list_elem_of_singleton]%elem_of_app; [eauto|done]. }
  assert (is_local (msg_id sent) = false) as Hremote.
  { apply (store_remote w3 Hw3). by eapply (answers_stored w3 Hw3). }
  split_and!; [done..| |].
  - (* no listing in between *)
    intros Hnone.
    destruct (pending_entry_kept_run me conversation es2 _ w3 o Hw2)
      as (pre & post & Hl & Hpre & Hpost); [| |done..| |].
    + simpl. apply elem_of_app. right. by apply list_elem_of_singleton.
    + intros _. exists (ChatView.messages (chat w1)), []. simpl.
      split_and!; [done..|]. apply not_elem_of_nil.
    + unfold pending_ids. by apply (list_elem_of_fmap_2' _ _ _ _ Hf).
    + assert (msg_id sent ∉ keys w3) as Hns.
      { eapply (answers_apart w3 Hw3); [done..|]. unfold keys. rewrite Hl.
        unfold ids. rewrite !fmap_app. apply elem_of_app. right. by left. }
      unfold keys in Hns. rewrite Hl in Hns. unfold ids in Hns.
      rewrite !fmap_app in Hns.
      apply not_elem_of_app in Hns as [Hns1 Hns2].
      apply not_elem_of_app in Hns2 as [_ Hns2].
      assert (ChatView.messages (ChatView.send_resolved o sent (chat w3))
              = pre ++ [sent] ++ post) as Hdone.
      { change (ChatView.messages (ChatView.send_resolved o sent (chat w3)))
          with ((λ m, if strict_eq (msg_id m) (msg_id o) then sent else m)
                  <$> ChatView.messages (chat w3)).
        rewrite Hl. by apply replace_once. }
      exists pre, post. split_and!; [done..| | | |].
      * unfold ChatView.view. simpl ChatView.messages in Hdone |- *.
        rewrite Hdone, !fmap_app. simpl. do 2 f_equal.
        unfold ChatView.bubble, strict_eq.
        by rewrite Htext, Hsender, bool_decide_eq_true_2.
      * done.
      * done.
      * unfold keys. simpl ChatView.messages in Hdone |- *. rewrite Hdone.
        unfold ids. rewrite !fmap_app.
        intros [?|[Heq%list_elem_of_singleton|?]%elem_of_app]%elem_of_app;
          [done| |done].
        simpl in Heq. by rewrite <- Heq in Hremote.
  - (* a listing in between *)
    intros Hsome.
    assert (ChatView.tmp_id now ∉ keys w3) as Habs.
    { eapply (absent_after_listing me conversation es2); [exact Hw2| | |done].
      - simpl. apply elem_of_app. right. by apply list_elem_of_singleton.
      - by right. }
    split; [done|]. simpl. by apply (replace_absent o).
Qed.

(** C3 (amended).  Take any interleaving of sends whose local identifier
    was not used before in the session, answers of the service, arrivals
    of those answers, and listings answered and applied.  The rendered
    list never has two entries with one identifier, and never has a
    pending entry together with the confirmed message made from it.  The
    arrival of a send's answer removes its pending entry, and on success
    puts the confirmed message in its place if the entry was still
    rendered; the application of a batch removes every pending entry,
    whether or not the batch has its confirmed message. *)
Theorem rendered_entries_stay_distinct (es : list Event) (w : World) :
  run me conversation initial es = Some w →
  NoDup (keys w)
  ∧ (∀ o sent, (o, sent) ∈ paired w → ¬ (o ∈ keys w ∧ msg_id sent ∈ keys w))
  ∧ (∀ i f w', flights w !! i = Some f →
       step me conversation w (Settle i) = Some w' →
       (msg_id (opt f) ∉ keys w')
       ∧ (∀ sent, reply f = Some (Some sent) → msg_id (opt f) ∈ keys w →
            msg_id sent ∈ keys w'))
  ∧ (∀ i w', step me conversation w (Deliver i) = Some w' →
       ∀ f, f ∈ flights w' → msg_id (opt f) ∉ keys w').
Proof.
  intros Hrun.
  pose proof (consistent_run me conversation es _ _ consistent_initial Hrun) as Hw.
  split_and!.
  - apply Hw.
  - intros o sent Hp [Ho Hs].
    destruct (paired_known w Hw o sent Hp) as [Hi [(f & Hf & <- & Hr)|Hno]].
    + by eapply (answers_apart w Hw).
    + apply Hno, rendered_local_is_pending; [done| |done].
      by apply (issued_local w Hw).
  - intros i [o r] w' Hi Hstep. simpl in Hstep. rewrite Hi in Hstep.
    assert (is_local (msg_id o) = true) as Hlocal.
    { apply (pending_issued w Hw). unfold pending_ids.
      apply (list_elem_of_fmap_2' _ _ {| opt := o; reply := r |});
        [by eapply list_elem_of_lookup_2|done]. }
    destruct r as [[sent|]|]; simplify_eq; unfold keys; simpl.
    + split.
      * intros [[Heq _]|[_ Hne]]%elem_of_ids_replace; [|done].
        eapply (local_not_stored w); [done..|]. rewrite Heq.
        eapply (answers_stored w Hw); [by eapply list_elem_of_lookup_2|done].
      * intros ? [= <-] Hin. rewrite ids_replace.
        apply list_elem_of_fmap. exists (msg_id o).
        by rewrite bool_decide_eq_true_2.
    + split; [|done]. intros [_ Hne]%elem_of_ids_filter. done.
  - intros i w' Hstep f Hf Hin.
    pose proof (consistent_step me conversation _ _ _ Hw Hstep) as Hw'.
    simpl in Hstep. destruct (polls w !! i) as [batch|] eqn:Hi; simplify_eq.
    unfold keys in Hin; simpl in *.
    eapply (local_not_stored w);
      [done| |eapply elem_of_sublist; [exact Hin|]].
    + apply (pending_issued w Hw). unfold pending_ids.
      by apply (list_elem_of_fmap_2 (msg_id ∘ opt)).
    + apply fmap_sublist, (polls_stored w Hw). by eapply list_elem_of_lookup_2.
Qed.

End InterleavingClaims.

Section InterleavingRuns.
Import Sync Sample.

Lemma rendered_entries_stay_distinct_witness :
  ∃ w, run alice conv9 initial scenario = Some w
       ∧ keys w = [IdNum 101]
       ∧ NoDup (keys w).
Proof.
  eexists. split; [reflexivity|]. split; [reflexivity|].
  refine (proj1 (rendered_entries_stay_distinct alice conv9 scenario _ _)).
  reflexivity.
Defined.

Lemma send_echo_then_confirm_witness :
  ∃ w2 w3 w4,
    step alice conv9 initial (Send 1000 (js "hello")) = Some w2
    ∧ run alice conv9 w2 Sample2.busy = Some w3
    ∧ step alice conv9 w3 (Settle 0) = Some w4
    ∧ ChatView.messages (chat w4)
      = [confirmed 101 alice "hello";
         ChatView.optimistic alice conv9 1001 (js "again")]
    ∧ ∃ pre post,
        ChatView.messages (chat w3)
        = pre ++ [ChatView.optimistic alice conv9 1000 (js "hello")] ++ post
        ∧ ChatView.messages (chat w4)
          = pre ++ [confirmed 101 alice "hello"] ++ post
        ∧ ChatView.view alice bob (chat w4)
          = (ChatView.bubble alice bob <$> pre)
            ++ [{| ChatView.key := IdNum 101; ChatView.mine := true;
                   ChatView.text := js "hello";
                   ChatView.avatarColor := avatar_color alice |}]
            ++ (ChatView.bubble alice bob <$> post)
        ∧ (IdNum 101 ∉ ids pre)
        ∧ (IdNum 101 ∉ ids post)
        ∧ (ChatView.tmp_id 1000 ∉ keys w4).
Proof.
  eexists _, _, _. split_and!; [reflexivity..|].
  exact (proj1 (proj2 (proj2
           (proj2 (send_echo_then_confirm alice conv9 bob [] Sample2.busy
                     initial _ _ 1000 (js "hello") eq_refl eq_refl eq_refl)
              0%nat (confirmed 101 alice "hello") _ eq_refl eq_refl)))
         eq_refl).
Defined.

(** C3, as stated, fails: the pending entry goes away without its
    confirmed message appearing.  A listing answered before the send is
    applied during it: nothing is rendered while the send is still in
    progress and the service has stored nothing.  When the service then
    stores the message as 101 and the answer arrives, still nothing is
    rendered. *)
Lemma pending_removed_without_counterpart :
  keys <$> run alice conv9 initial stale_listing = Some []
  ∧ pending_ids <$> run alice conv9 initial stale_listing
    = Some [ChatView.tmp_id 1000]
  ∧ store <$> run alice conv9 initial stale_listing = Some []
  ∧ keys <$> run alice conv9 initial
               (stale_listing ++ [Accept 0 (IdNum 101); Settle 0])
    = Some []
  ∧ paired <$> run alice conv9 initial
                 (stale_listing ++ [Accept 0 (IdNum 101); Settle 0])
    = Some [(ChatView.tmp_id 1000, confirmed 101 alice "hi")].
Proof. split_and!; reflexivity. Qed.

End InterleavingRuns.

(** * Further properties of the code *)

(** ** Transport and the api object *)

Section TransportMore.
Import Transport.
Variables (base path : jsstring) (options : Options).


(** X1.  [http] returns a value exactly when [fetch] resolved with a
    status from 200 to 299 and [res.json()] gave that value. *)
Theorem http_returns_iff (net : Net) (v : Json) :
  (http base path options net).1 = inr v
  ↔ ∃ res, outcome net (length (issued net)) = fetch_resolved res
           ∧ 200 ≤ status res ≤ 299
           ∧ res_json res = Some v.
Proof.
  unfold http, mbind, M_bind, fetch, ok.
  destruct (outcome net (length (issued net))) as [reason|res]; simpl.
  { split; [done|]. by intros (res & ? & _). }
  split.
  - destruct (200 <=? status res) eqn:Hlo; simpl; [|done].
    destruct (status res <=? 299) eqn:Hhi; simpl; [|done].
    unfold json. destruct (res_json res) as [v'|] eqn:Hj; simpl; [|done].
    intros [= ->]. exists res. apply Z.leb_le in Hlo, Hhi. done.
  - intros (res' & [= <-] & [Hlo Hhi] & Hj).
    apply Z.leb_le in Hlo, Hhi. rewrite Hlo, Hhi; simpl.
    unfold json. by rewrite Hj.
Qed.

(** X2.  The [Error] that [http] throws never has an empty message. *)
Theorem http_error_message_not_empty (net : Net) :
  (http base path options net).1 ≠ inl (Error []).
Proof.
  unfold http, mbind, M_bind, fetch.
  destruct (outcome net (length (issued net))) as [reason|res]; [done|].
  destruct (ok res); simpl.
  - unfold json. by destruct (res_json res).
  - by destruct (res_text res).
Qed.

End TransportMore.

Section ApiFacts.
Import Transport Api.
Variable JSON_stringify : Json → jsstring.
Variable URLSearchParams_toString : list (jsstring * jsstring) → jsstring.
Variable exponent_form : Z → jsstring.


(** A cursor that is the empty string is left out, like no cursor. *)
Lemma api_listMessages_empty_cursor (conversation : Id) (limit : Z) :
  api JSON_stringify URLSearchParams_toString exponent_form
    (listMessages conversation limit (Some []))
  = api JSON_stringify URLSearchParams_toString exponent_form
      (listMessages conversation limit None).
Proof. done. Qed.

(** The listing that [ChatView.load] asks for: the path ends in what
    [URLSearchParams] makes of the one pair [limit=100]. *)
Lemma api_load_path (conversation : Id) :
  (api JSON_stringify URLSearchParams_toString exponent_form
     (listMessages conversation 100 None)).1
  = js "/messages/" ++ String_of_id exponent_form conversation ++ js "?"
      ++ URLSearchParams_toString [(js "limit", js "100")].
Proof. done. Qed.

End ApiFacts.

(** ** Trimming and the input bar *)

Lemma trimStart_split (s : jsstring) :
  ∃ pre, s = pre ++ trimStart s ∧ forallb is_white_space pre = true.
Proof.
  induction s as [|c s (pre & Hs & Hpre)]; simpl; [by exists []|].
  destruct (is_white_space c) eqn:Hc.
  - exists (c :: pre). simpl. rewrite Hc, Hpre. split; [congruence|done].
  - by exists [].
Qed.

Lemma forallb_reverse (p : N → bool) (l : jsstring) :
  forallb p (reverse l) = forallb p l.
Proof.
  induction l as [|c l IH]; [done|].
  rewrite reverse_cons, forallb_app, IH; simpl.
  rewrite andb_true_r. apply andb_comm.
Qed.

(** [trim] takes away a blank prefix and a blank suffix; what is left is
    empty or has a first and a last character that are not white space. *)
Lemma trim_split (s : jsstring) :
  ∃ pre post,
    s = pre ++ trim s ++ post
    ∧ forallb is_white_space pre = true
    ∧ forallb is_white_space post = true
    ∧ (∀ c, head (trim s) = Some c → is_white_space c = false)
    ∧ (∀ c, last (trim s) = Some c → is_white_space c = false).
Proof.
  destruct (trimStart_split s) as (pre & Hs & Hpre).
  destruct (trimStart_split (reverse (trimStart s))) as (erp & Hr & Herp).
  assert (trimStart s = trim s ++ reverse erp) as Hu.
  { unfold trim. rewrite <- reverse_app, <- Hr. by rewrite reverse_involutive. }
  exists pre, (reverse erp). split_and!.
  - by rewrite <- Hu.
  - done.
  - by rewrite forallb_reverse.
  - intros c Hc.
    destruct (trimStart_head s) as [Hnil|(c' & r & Hcr & Hc')].
    + unfold trim in Hc. by rewrite Hnil in Hc.
    + rewrite Hu in Hcr. destruct (trim s) as [|c0 t]; [done|].
      simpl in *. congruence.
  - intros c Hc. unfold trim in Hc. rewrite last_reverse in Hc.
    destruct (trimStart_head (reverse (trimStart s))) as [Hnil|(c' & r & Hcr & Hc')].
    + by rewrite Hnil in Hc.
    + rewrite Hcr in Hc. simpl in Hc. congruence.
Qed.

Section InputBarFacts.
Context {S : Type}.
Variable onSend : jsstring → S → S.

(** X4.  The input bar either ignores a blank text, keeping the cell as
    it is, or clears the cell and hands on the text without its blank
    ends: what the parent gets is never empty and neither starts nor
    ends with white space. *)
Theorem InputBar_send_hands_on_trimmed (raw : jsstring) (parent : S) :
  (forallb is_white_space raw = true
   ∧ InputBar.send onSend raw parent = (raw, parent))
  ∨ (∃ t pre post,
       InputBar.send onSend raw parent = ([], onSend t parent)
       ∧ t ≠ []
       ∧ raw = pre ++ t ++ post
       ∧ forallb is_white_space pre = true
       ∧ forallb is_white_space post = true
       ∧ (∀ c, head t = Some c → is_white_space c = false)
       ∧ (∀ c, last t = Some c → is_white_space c = false)).
Proof.
  destruct (trim_split raw) as (pre & post & Hraw & Hpre & Hpost & Hhd & Hlt).
  unfold InputBar.send. destruct (trim raw) as [|c t] eqn:Ht.
  - left. split; [|done]. by apply trim_nil.
  - right. exists (c :: t), pre, post. done.
Qed.

End InputBarFacts.

(** ** The chat view: answers in any order *)

Section ChatViewMore.
Import ChatView.
Variables (me peer : User) (conversation : Conversation).

(** X5.  The answers of two sends can arrive in either order: when the
    two local identifiers differ and neither confirmed message carries
    the other send's local identifier, both orders give the same state. *)
Theorem send_answers_commute (o1 o2 s1 s2 : Message) (c : ChatView.t) :
  msg_id o1 ≠ msg_id o2 →
  msg_id s1 ≠ msg_id o2 →
  msg_id s2 ≠ msg_id o1 →
  send_resolved o1 s1 (send_resolved o2 s2 c)
  = send_resolved o2 s2 (send_resolved o1 s1 c).
Proof.
  intros H12 H1 H2. unfold send_resolved, setMessages; simpl. f_equal.
  rewrite <- !list_fmap_compose. apply list_fmap_ext. intros _ m _; simpl.
  unfold strict_eq.
  repeat (case_bool_decide; simpl); congruence.
Qed.

(** X6.  Two sends made one after the other, with local identifiers that
    differ and are not yet rendered, end up as the two confirmed messages
    in the order of sending, also when the second answer arrives first. *)
Theorem confirmed_in_send_order
    (now1 now2 : Z) (t1 t2 : jsstring) (s1 s2 : Message) (c : ChatView.t) :
  tmp_id now1 ∉ ids (messages c) →
  tmp_id now2 ∉ ids (messages c) →
  now1 ≠ now2 →
  msg_id s1 ≠ tmp_id now2 →
  msg_id s2 ≠ tmp_id now1 →
  messages (send_resolved (optimistic me conversation now1 t1) s1
              (send_resolved (optimistic me conversation now2 t2) s2
                 (send_begin me conversation now2 t2
                    (send_begin me conversation now1 t1 c))))
  = messages c ++ [s1; s2].
Proof.
  intros Hf1 Hf2 Hne H1 H2.
  assert (tmp_id now1 ≠ tmp_id now2) as Hid by (by intros ?%tmp_id_inj).
  unfold send_resolved, send_begin; simpl.
  rewrite !fmap_app.
  rewrite (replace_absent (optimistic me conversation now2 t2)) by done.
  rewrite (replace_absent (optimistic me conversation now1 t1)) by done.
  unfold strict_eq; simpl.
  repeat (case_bool_decide; simpl); try congruence.
  all: by rewrite <- app_assoc.
Qed.

(** X7.  A failed send takes away the entries with its own local
    identifier and nothing else: the others stay, in their order; it
    starts no request and raises one alert. *)
Theorem failed_send_removes_only_its_own (o : Message) (c : ChatView.t) :
  messages (send_rejected o c) `sublist_of` messages c
  ∧ (∀ m, m ∈ messages (send_rejected o c)
          ↔ m ∈ messages c ∧ msg_id m ≠ msg_id o)
  ∧ requests (send_rejected o c) = requests c
  ∧ alerts (send_rejected o c) = alerts c ++ [js "Failed to send"].
Proof.
  unfold send_rejected; simpl. split_and!; [|intros m|done..].
  - apply sublist_filter.
  - rewrite list_elem_of_filter. tauto.
Qed.

(** X8.  The two participants see one list with the sides swapped: for a
    batch whose senders are the two of them, the keys and texts rendered
    are the same on both clients and [mine] is true on exactly one. *)
Theorem two_clients_see_mirrored_views
    (a b : User) (batch : list Message) (ca cb : ChatView.t) :
  user_id a ≠ user_id b →
  (∀ m, m ∈ batch → msg_sender_id m = user_id a ∨ msg_sender_id m = user_id b) →
  key <$> view a b (load_resolved batch ca) = key <$> view b a (load_resolved batch cb)
  ∧ text <$> view a b (load_resolved batch ca)
    = text <$> view b a (load_resolved batch cb)
  ∧ mine <$> view a b (load_resolved batch ca)
    = negb <$> (mine <$> view b a (load_resolved batch cb))
  ∧ avatarColor <$> view a b (load_resolved batch ca)
    = avatarColor <$> view b a (load_resolved batch cb).
Proof.
  intros Hab Hsenders. unfold view; simpl.
  rewrite <- !list_fmap_compose. split_and!; [done..| |].
  - apply list_fmap_ext. intros _ m Hm%list_elem_of_lookup_2; simpl.
    unfold strict_eq.
    destruct (Hsenders m Hm) as [E|E]; rewrite E;
      repeat (rewrite ?bool_decide_eq_true_2, ?bool_decide_eq_false_2 by congruence);
      done.
  - apply list_fmap_ext. intros _ m Hm%list_elem_of_lookup_2; simpl.
    unfold strict_eq.
    destruct (Hsenders m Hm) as [E|E]; rewrite E;
      repeat (rewrite ?bool_decide_eq_true_2, ?bool_decide_eq_false_2 by congruence);
      done.
Qed.

End ChatViewMore.

(** ** The polling effects over whole event sequences *)

Section ChatViewTraces.
Import ChatView.
Variable me : User.

Lemma cleared_timer_stays_cleared (k : nat) (c : ChatView.t) (e : ChatViewTrace.Event) :
  intervals c !! k = Some None →
  intervals (ChatViewTrace.handle me c e) !! k = Some None.
Proof.
  intros Hk. destruct e as [conv|j|j|msgs|conv now t|o s|o]; simpl; try done.
  - by apply lookup_app_l_Some.
  - unfold tick. by destruct (intervals c !! j) as [[conv|]|].
  - destruct (decide (j = k)) as [->|Hne].
    + rewrite list_lookup_insert_eq; [done|]. by eapply lookup_lt_Some.
    + by rewrite list_lookup_insert_ne.
Qed.

(** X9.  Once the cleanup of a message effect has run, its timer starts
    no request again, whatever happens to the view afterwards: later
    effects, other timers, listings, sends and their answers. *)
Theorem ChatView_stopped_timer_never_fetches
    (k : nat) (c : ChatView.t) (es : list ChatViewTrace.Event) :
  (k < length (intervals c))%nat →
  intervals (foldl (ChatViewTrace.handle me) (cleanup k c) es) !! k = Some None
  ∧ tick k (foldl (ChatViewTrace.handle me) (cleanup k c) es)
    = foldl (ChatViewTrace.handle me) (cleanup k c) es.
Proof.
  intros Hk.
  assert (intervals (foldl (ChatViewTrace.handle me) (cleanup k c) es) !! k
          = Some None) as Hoff.
  { assert (intervals (cleanup k c) !! k = Some None) as H0.
    { simpl. by apply list_lookup_insert_eq. }
    revert H0. generalize (cleanup k c).
    induction es as [|e es IH]; intros c0 H0; simpl; [done|].
    by apply IH, cleared_timer_stays_cleared. }
  split; [done|]. unfold tick. by rewrite Hoff.
Qed.

(** X10.  After the first listing has arrived the loading notice never
    comes back, not even when the effect restarts for another
    conversation. *)
Theorem ChatView_loading_never_returns
    (msgs : list Message) (c : ChatView.t) (es : list ChatViewTrace.Event) :
  loading (foldl (ChatViewTrace.handle me) (load_resolved msgs c) es) = false.
Proof.
  assert (loading (load_resolved msgs c) = false) as H0 by done.
  revert H0. generalize (load_resolved msgs c).
  induction es as [|e es IH]; intros c0 H0; simpl; [done|].
  apply IH. destruct e as [conv|j|j|ms|conv now t|o s|o]; simpl; try done.
  unfold tick. by destruct (intervals c0 !! j) as [[conv|]|].
Qed.

End ChatViewTraces.

Section HomeTraces.
Variable me : User.

Lemma Home_stopped_stays_stopped (k : nat) (h : Home.t) (e : HomeTrace.Event) :
  Home.on h !! k = Some false ∧ Home.intervals h !! k = Some false →
  Home.on (HomeTrace.handle me h e) !! k = Some false
  ∧ Home.intervals (HomeTrace.handle me h e) !! k = Some false.
Proof.
  intros [Hon Hiv]. destruct e as [|j|j|j cs]; simpl.
  - split; by apply lookup_app_l_Some.
  - unfold Home.tick. by destruct (Home.intervals h !! j) as [[]|].
  - destruct (decide (j = k)) as [->|Hne].
    + rewrite !list_lookup_insert_eq; [done|by eapply lookup_lt_Some..].
    + by rewrite !list_lookup_insert_ne.
  - unfold Home.load_resolved. by destruct (Home.on h !! j) as [[]|].
Qed.

(** X11.  Once the cleanup of a conversation-list effect has run, that
    run is silent for good: whatever happens afterwards, its timer
    starts no request and its answers change nothing. *)
Theorem Home_stopped_run_stays_silent
    (k : nat) (h : Home.t) (es : list HomeTrace.Event) (cs : list Conversation) :
  (k < length (Home.on h))%nat →
  (k < length (Home.intervals h))%nat →
  Home.tick me k (foldl (HomeTrace.handle me) (Home.cleanup k h) es)
  = foldl (HomeTrace.handle me) (Home.cleanup k h) es
  ∧ Home.load_resolved k cs (foldl (HomeTrace.handle me) (Home.cleanup k h) es)
    = foldl (HomeTrace.handle me) (Home.cleanup k h) es.
Proof.
  intros Hon Hiv.
  assert (let h' := foldl (HomeTrace.handle me) (Home.cleanup k h) es in
          Home.on h' !! k = Some false ∧ Home.intervals h' !! k = Some false)
    as [Hoff Hclr].
  { assert (Home.on (Home.cleanup k h) !! k = Some false
            ∧ Home.intervals (Home.cleanup k h) !! k = Some false) as H0.
    { simpl. by rewrite !list_lookup_insert_eq. }
    revert H0. generalize (Home.cleanup k h).
    induction es as [|e es IH]; intros h0 H0; simpl; [done|].
    by apply IH, Home_stopped_stays_stopped. }
  unfold Home.tick, Home.load_resolved. by rewrite Hoff, Hclr.
Qed.

End HomeTraces.

(** ** More on interleavings *)

Section InterleavingsMore.
Import Sync.
Variables (me : User) (conversation : Conversation).

Lemma elem_of_delete_other {A : Type} (l : list A) (i j : nat) (x : A) :
  l !! j = Some x → j ≠ i → x ∈ delete i l.
Proof.
  intros Hj Hne. apply list_elem_of_lookup.
  destruct (decide (j < i)%nat).
  - exists j. by rewrite list_lookup_delete_lt.
  - exists (pred j). rewrite list_lookup_delete_ge by lia.
    by replace (S (pred j)) with j by lia.
Qed.

Lemma grounded_step (w w' : World) (e : Event) :
  Grounded.grounded w → step me conversation w e = Some w' → Grounded.grounded w'.
Proof.
  intros (Hm & Ha & Hp) Hstep. destruct e as [now t|i sid|i|m0|i|k|i]; simpl in Hstep.
  - (* Send *)
    case_bool_decide; simplify_eq. split_and!; simpl.
    + intros m [Hin| ->%list_elem_of_singleton]%elem_of_app.
      * destruct (Hm m Hin) as [?|(f & Hf & Hopt)]; [by left|right].
        exists f. split; [|done]. apply elem_of_app. by left.
      * right. eexists. split; [apply elem_of_app; right; by apply list_elem_of_singleton|done].
    + intros f s [Hf| ->%list_elem_of_singleton]%elem_of_app Hr; [eauto|done].
    + done.
  - (* Accept *)
    destruct (flights w !! i) as [[o [r|]]|] eqn:Hi; simplify_eq.
    destruct (negb (is_local sid) && bool_decide (sid ∉ ids (store w)));
      simplify_eq.
    split_and!; simpl.
    + intros m Hin. destruct (Hm m Hin) as [?|(f & Hf & Hopt)].
      { left. apply elem_of_app. by left. }
      right. apply list_elem_of_lookup in Hf as [j Hj].
      destruct (decide (j = i)) as [->|Hne].
      * simplify_eq. exists {| opt := o; reply := Some (Some (stored_as sid o)) |}.
         split; [|done].
        apply list_elem_of_lookup. exists i.
        apply list_lookup_insert_eq. by eapply lookup_lt_Some.
      * exists f. split; [|done]. apply list_elem_of_lookup. exists j.
        by rewrite list_lookup_insert_ne.
    + intros f s [->|Hf]%elem_of_insert_inv Hr; simplify_eq/=.
      * apply elem_of_app. right. by apply list_elem_of_singleton.
      * apply elem_of_app. left. eauto.
    + intros b m Hb Hin. apply elem_of_app. left. eauto.
  - (* Refuse *)
    destruct (flights w !! i) as [[o [r|]]|] eqn:Hi; simplify_eq.
    split_and!; simpl.
    + intros m Hin. destruct (Hm m Hin) as [?|(f & Hf & Hopt)]; [by left|right].
      apply list_elem_of_lookup in Hf as [j Hj].
      destruct (decide (j = i)) as [->|Hne].
      * simplify_eq. exists {| opt := o; reply := Some None |}. split; [|done].
        apply list_elem_of_lookup. exists i.
        apply list_lookup_insert_eq. by eapply lookup_lt_Some.
      * exists f. split; [|done]. apply list_elem_of_lookup. exists j.
        by rewrite list_lookup_insert_ne.
    + intros f s [->|Hf]%elem_of_insert_inv Hr; simplify_eq/=. eauto.
    + done.
  - (* PeerMessage *)
    destruct (negb (is_local (msg_id m0)) && bool_decide (msg_id m0 ∉ ids (store w)));
      simplify_eq.
    split_and!; simpl.
    + intros m Hin. destruct (Hm m Hin) as [?|?]; [left|by right].
      apply elem_of_app. by left.
    + intros f s Hf Hr. apply elem_of_app. left. eauto.
    + intros b m Hb Hin. apply elem_of_app. left. eauto.
  - (* Settle *)
    destruct (flights w !! i) as [[o [r|]]|] eqn:Hi; simplify_eq.
    assert (∀ m, m ∈ ChatView.messages (chat w) → msg_id m ≠ msg_id o →
                 m ∈ store w ∨ ∃ f, f ∈ delete i (flights w) ∧ opt f = m) as Hkeep.
    { intros m Hin Hne. destruct (Hm m Hin) as [?|(f & Hf & Hopt)]; [by left|right].
      apply list_elem_of_lookup in Hf as [j Hj]. exists f. split; [|done].
      eapply elem_of_delete_other; [done|]. intros ->. simplify_eq/=. }
    split_and!; simpl.
    + destruct r as [sent|]; simpl.
      * intros m' (m & -> & Hin)%list_elem_of_fmap. unfold strict_eq.
        case_bool_decide as Hid; [left|by apply Hkeep].
        eapply Ha; [by eapply list_elem_of_lookup_2|done].
      * intros m [Hne Hin]%list_elem_of_filter. by apply Hkeep.
    + intros f s Hf%elem_of_delete_inv. eauto.
    + done.
  - (* Snapshot *)
    simplify_eq. split_and!; simpl; [done..|].
    intros b m [Hb| ->%list_elem_of_singleton]%elem_of_app Hin; [eauto|].
    eapply elem_of_sublist; [done|apply sublist_drop].
  - (* Deliver *)
    destruct (polls w !! i) as [batch|] eqn:Hi; simplify_eq.
    split_and!; simpl.
    + intros m Hin. left. eapply Hp; [by eapply list_elem_of_lookup_2|done].
    + done.
    + intros b m Hb%elem_of_delete_inv. eauto.
Qed.

(** X12.  In every interleaving, each rendered message is either a
    message the service has stored or the optimistic object of a send
    that is still in progress. *)
Theorem rendered_messages_are_grounded (es : list Event) (w : World) (m : Message) :
  run me conversation initial es = Some w →
  m ∈ ChatView.messages (chat w) →
  m ∈ store w ∨ ∃ f, f ∈ flights w ∧ opt f = m.
Proof.
  intros Hrun. assert (Grounded.grounded w) as (Hm & _); [|by apply Hm].
  assert (Grounded.grounded initial) as H0.
  { split_and!; simpl; intros; by repeat match goal with
    | H : _ ∈ [] |- _ => apply not_elem_of_nil in H end. }
  revert H0 Hrun. generalize initial.
  induction es as [|e es IH]; intros w0 H0 Hrun; simplify_eq/=; [done|].
  destruct (step me conversation w0 e) as [w1|] eqn:Hstep; [|done].
  eauto using grounded_step.
Qed.


End InterleavingsMore.

(** ** Session start and the stored profile *)

Section ProfileMore.
Import Profile.
Variable JSON_parse : jsstring → option Json.
Variable JSON_stringify : Json → jsstring.

(** X14.  The session starts in [Home] exactly when the stored item is
    not empty, parses, and parses to a truthy value; that value is the
    user.  An item that parses to [null], [false], [0] or [""] leads to
    onboarding like a missing one. *)
Theorem App_Home_iff (item : option jsstring) (v : Json) :
  JSON_parse (js "null") = Some JNull →
  App JSON_parse item = Home v
  ↔ ∃ c s, item = Some (c :: s) ∧ JSON_parse (c :: s) = Some v ∧ truthy v = true.
Proof.
  intros Hnull. unfold App, useLocalUser. split.
  - destruct item as [[|c s]|]; rewrite ?Hnull; simpl; try done.
    destruct (JSON_parse (c :: s)) as [u|] eqn:Hp; simpl; [|done].
    destruct (truthy u) eqn:Hu; simpl; [|done].
    intros [= ->]. by exists c, s.
  - intros (c & s & -> & Hp & Hv). by rewrite Hp, Hv.
Qed.

(** X15.  What [save] stores brings the same session back on a reload:
    when [JSON.parse] inverts [JSON.stringify] on the saved user, the
    state after the reload is the state after the save, and so is the
    screen. *)
Theorem save_then_reload (u : Json) (s : LocalUser.t) :
  JSON_stringify u ≠ [] →
  JSON_parse (JSON_stringify u) = Some u →
  LocalUser.reload JSON_parse (LocalUser.save JSON_stringify u s)
  = LocalUser.save JSON_stringify u s
  ∧ App JSON_parse (LocalUser.chat_user (LocalUser.save JSON_stringify u s))
    = LocalUser.screen (LocalUser.save JSON_stringify u s).
Proof.
  intros Hne Hrt.
  unfold LocalUser.reload, LocalUser.start, LocalUser.save, LocalUser.screen,
    App, useLocalUser; simpl.
  destruct (JSON_stringify u) as [|c t] eqn:Hs; [done|]. by rewrite Hrt.
Qed.

End ProfileMore.

(** ** The onboarding form *)

Section OnboardFacts.
Import Onboard.

Lemma Onboard_handle_keeps (w w' : Onboard.t * nat) (e : Event) :
  handle w e = Some w' →
  (length (requests w.1) = w.2 + (if loading w.1 then 1 else 0))%nat →
  (∀ r, r ∈ requests w.1 →
        ∃ raw c, r = createUser (trim raw) c ∧ trim raw ≠ []) →
  (length (requests w'.1) = w'.2 + (if loading w'.1 then 1 else 0))%nat
  ∧ (∀ r, r ∈ requests w'.1 →
          ∃ raw c, r = createUser (trim raw) c ∧ trim raw ≠ []).
Proof.
  destruct w as [o answered]. intros Hstep Hcount Hreqs; simpl in *.
  destruct e as [s|c| |user|]; simplify_eq/=; try done.
  - (* Click *)
    unfold disabled, create. destruct (loading o) eqn:Hl; simpl;
      [by rewrite Hl|].
    destruct (trim (username o)) as [|ch t] eqn:Ht; simpl.
    + by rewrite Hl.
    + split.
      * rewrite length_app; simpl. lia.
      * intros r [Hr| ->%list_elem_of_singleton]%elem_of_app; [eauto|].
        exists (username o), (color o). by rewrite Ht.
  - case_bool_decide; simplify_eq; simpl. split; [|done].
    destruct (loading o); lia.
  - case_bool_decide; simplify_eq; simpl. split; [|done].
    destruct (loading o); lia.
Qed.

Lemma Onboard_handle_all_keeps (es : list Event) (w w' : Onboard.t * nat) :
  handle_all w es = Some w' →
  (length (requests w.1) = w.2 + (if loading w.1 then 1 else 0))%nat →
  (∀ r, r ∈ requests w.1 →
        ∃ raw c, r = createUser (trim raw) c ∧ trim raw ≠ []) →
  (length (requests w'.1) = w'.2 + (if loading w'.1 then 1 else 0))%nat
  ∧ (∀ r, r ∈ requests w'.1 →
          ∃ raw c, r = createUser (trim raw) c ∧ trim raw ≠ []).
Proof.
  revert w. induction es as [|e es IH]; intros w Hrun Hc Hr; simplify_eq/=; [done|].
  destruct (handle w e) as [w1|] eqn:Hstep; [|done].
  destruct (Onboard_handle_keeps _ _ _ Hstep Hc Hr). eauto.
Qed.

(** X16.  However the user types, picks colours and clicks, and however
    answers arrive, the form never has two requests without an answer:
    the requests not yet answered are one while [loading] is set and
    none otherwise. *)
Theorem Onboard_one_request_at_a_time
    (es : list Event) (o : Onboard.t) (answered : nat) :
  handle_all (initial, 0%nat) es = Some (o, answered) →
  (length (requests o) = answered + (if loading o then 1 else 0))%nat.
Proof.
  intros Hrun.
  apply (Onboard_handle_all_keeps es (initial, 0%nat) (o, answered) Hrun); simpl;
    [done|]. by intros r Hr%not_elem_of_nil.
Qed.

(** X17.  Every request the form makes is a [createUser] whose name is
    not empty and neither starts nor ends with white space. *)
Theorem Onboard_names_are_trimmed
    (es : list Event) (o : Onboard.t) (answered : nat) (r : ApiCall) :
  handle_all (initial, 0%nat) es = Some (o, answered) →
  r ∈ requests o →
  ∃ name c, r = createUser name c
            ∧ name ≠ []
            ∧ (∀ ch, head name = Some ch → is_white_space ch = false)
            ∧ (∀ ch, last name = Some ch → is_white_space ch = false).
Proof.
  intros Hrun Hr.
  destruct (Onboard_handle_all_keeps es (initial, 0%nat) (o, answered) Hrun)
    as [_ Hreqs]; simpl; [done|by intros ? ?%not_elem_of_nil|].
  destruct (Hreqs r Hr) as (raw & c & -> & Hne).
  destruct (trim_split raw) as (_ & _ & _ & _ & _ & Hhd & Hlt).
  by exists (trim raw), c.
Qed.

End OnboardFacts.

(** ** Picking a peer and moving between screens *)

Section PeopleFacts.
Variable me : User.

(** X18.  The people offered are the users of the listing other than me,
    in the order of the listing; so a conversation started from the list
    is never with myself. *)
Theorem people_offered_are_the_others
    (k : nat) (list : list User) (p : PeopleList.t) :
  PeopleList.on p !! k = Some true →
  PeopleList.people (PeopleList.list_resolved me k list p) `sublist_of` list
  ∧ (∀ u, u ∈ PeopleList.people (PeopleList.list_resolved me k list p)
          ↔ u ∈ list ∧ user_id u ≠ user_id me)
  ∧ (∀ u n, u ∈ PeopleList.people (PeopleList.list_resolved me k list p) →
       ∃ b, HomeNav.requests (HomeNav.openWith me u n)
            = HomeNav.requests n ++ [startConversation (user_id me) b]
            ∧ b ≠ user_id me).
Proof.
  intros Hon. unfold PeopleList.list_resolved. rewrite Hon; simpl.
  split_and!.
  - apply sublist_filter.
  - intros u. rewrite list_elem_of_filter. tauto.
  - intros u n [Hne _]%list_elem_of_filter. by exists (user_id u).
Qed.

Lemma HomeNav_chat_has_conversation (n : HomeNav.t) (e : HomeNav.Event) :
  (HomeNav.stage n = HomeNav.stage_chat → is_Some (HomeNav.activeConv n)) →
  HomeNav.stage (HomeNav.handle me n e) = HomeNav.stage_chat →
  is_Some (HomeNav.activeConv (HomeNav.handle me n e)).
Proof.
  intros Hn. destruct e as [peer|peer conv| |c|c users| |]; simpl; try done.
  unfold HomeNav.click_resolved.
  by destruct (List.find _ users).
Qed.

(** X19.  Whatever the order of clicks and answers, whenever the stage is
    ['chat'] there is an active conversation, and the chat view of that
    conversation is what is rendered. *)
Theorem HomeNav_chat_stage_renders_chat (es : list HomeNav.Event) :
  HomeNav.stage (foldl (HomeNav.handle me) HomeNav.initial es) = HomeNav.stage_chat →
  ∃ peer conv,
    HomeNav.activeConv (foldl (HomeNav.handle me) HomeNav.initial es)
    = Some (peer, conv)
    ∧ HomeNav.render (foldl (HomeNav.handle me) HomeNav.initial es)
      = HomeNav.ChatScreen peer conv.
Proof.
  assert (HomeNav.stage HomeNav.initial = HomeNav.stage_chat →
          is_Some (HomeNav.activeConv HomeNav.initial)) as H0 by done.
  revert H0. generalize HomeNav.initial.
  induction es as [|e es IH]; intros n Hn; simpl.
  - intros Hs. destruct (Hn Hs) as [[peer conv] Ha]. exists peer, conv.
    unfold HomeNav.render. by rewrite Hs, Ha.
  - apply IH. by apply HomeNav_chat_has_conversation.
Qed.

(** Where [find] stops: at the first element that passes the test. *)
Lemma find_first {A : Type} (p : A → bool) (l : list A) (x : A) :
  List.find p l = Some x →
  ∃ l1 l2, l = l1 ++ x :: l2 ∧ p x = true ∧ ∀ y, y ∈ l1 → p y = false.
Proof.
  induction l as [|a l IH]; simpl; [done|].
  destruct (p a) eqn:Ha.
  - intros [= ->]. exists [], l. split_and!; [done..|].
    by intros y ?%not_elem_of_nil.
  - intros (l1 & l2 & -> & Hx & Hl1)%IH. exists (a :: l1), l2.
    split_and!; [done..|].
    intros y [->|Hy]%elem_of_cons; auto.
Qed.

Lemma find_nothing {A : Type} (p : A → bool) (l : list A) :
  List.find p l = None → ∀ y, y ∈ l → p y = false.
Proof.
  intros Hnone y Hy%list_elem_of_In. by apply (List.find_none _ _ Hnone).
Qed.

(** X20.  A click on a conversation row, once the user listing is there,
    looks for the first participant that is not me and opens the chat
    with the first user of the listing who has that identifier; when
    every participant is me, or no user of the listing has that
    identifier, it alerts and the screen stays. *)
Theorem HomeNav_click_opens_the_peer
    (c : Conversation) (users : list User) (n : HomeNav.t) :
  (∃ peer mine rest before after,
     HomeNav.click_resolved me c users n
     = HomeNav.setStage HomeNav.stage_chat (HomeNav.setActiveConv (peer, c) n)
     ∧ HomeNav.render (HomeNav.click_resolved me c users n)
       = HomeNav.ChatScreen peer c
     ∧ participant_ids c = mine ++ user_id peer :: rest
     ∧ (∀ i, i ∈ mine → i = user_id me)
     ∧ user_id peer ≠ user_id me
     ∧ users = before ++ peer :: after
     ∧ (∀ u, u ∈ before → user_id u ≠ user_id peer))
  ∨ (HomeNav.click_resolved me c users n = HomeNav.alert (js "Peer not found") n
     ∧ HomeNav.render (HomeNav.click_resolved me c users n) = HomeNav.render n
     ∧ ((∀ i, i ∈ participant_ids c → i = user_id me)
        ∨ ∃ p mine rest,
            participant_ids c = mine ++ p :: rest
            ∧ (∀ i, i ∈ mine → i = user_id me)
            ∧ p ≠ user_id me
            ∧ ∀ u, u ∈ users → user_id u ≠ p)).
Proof.
  assert (∀ i, negb (strict_eq i (user_id me)) = true ↔ i ≠ user_id me) as Hother.
  { intros i. unfold strict_eq.
    rewrite negb_true_iff, bool_decide_eq_false. done. }
  assert (∀ i, negb (strict_eq i (user_id me)) = false ↔ i = user_id me) as Hmine.
  { intros i. unfold strict_eq.
    rewrite negb_false_iff, bool_decide_eq_true. done. }
  unfold HomeNav.click_resolved.
  destruct (List.find _ users) as [peer|] eqn:Hfind.
  - left. apply find_first in Hfind as (before & after & Husers & Hid & Hbefore).
    apply bool_decide_eq_true in Hid. symmetry in Hid.
    unfold HomeNav.peerId in Hid.
    apply find_first in Hid as (mine & rest & Hparts & Hne & Hmine').
    exists peer, mine, rest, before, after.
    split_and!; [done..| | | |].
    + intros i Hi. by apply Hmine, Hmine'.
    + by apply Hother.
    + done.
    + intros u Hu Heq. apply Hbefore in Hu.
      apply bool_decide_eq_false in Hu. apply Hu.
      unfold HomeNav.peerId. rewrite Hparts.
      rewrite Heq. clear -Hne Hmine'.
      induction mine as [|a mine IH]; simpl.
      * by rewrite Hne.
      * rewrite (Hmine' a) by left. apply IH.
        intros y Hy. apply Hmine'. by right.
  - right. split_and!; [done..|].
    pose proof (find_nothing _ _ Hfind) as Hnone. simpl in Hnone.
    destruct (HomeNav.peerId me c) as [p|] eqn:Hp.
    + right. unfold HomeNav.peerId in Hp.
      apply find_first in Hp as (mine & rest & Hparts & Hne & Hmine').
      exists p, mine, rest. split_and!; [done| | |].
      * intros i Hi. by apply Hmine, Hmine'.
      * by apply Hother.
      * intros u Hu Heq. apply Hnone in Hu.
        apply bool_decide_eq_false in Hu. congruence.
    + left. intros i Hi. apply Hmine.
      by apply (find_nothing _ _ Hp).
Qed.

End PeopleFacts.

(** ** Avatar initials *)

Section AvatarFacts.
Import Avatar.

Lemma split_pieces_have_no_separator (sep : N) (s : jsstring) :
  Forall (λ p, sep ∉ p) (split sep s) ∧ split sep s ≠ [].
Proof.
  induction s as [|c s [IH Hne]]; simpl.
  - split; [|done]. apply Forall_singleton. apply not_elem_of_nil.
  - case_bool_decide as Hc.
    + split; [|done]. apply Forall_cons. split; [apply not_elem_of_nil|done].
    + destruct (split sep s) as [|p ps]; [done|]. split; [|done].
      apply Forall_cons in IH as [Hp Hps]. apply Forall_cons. split; [|done].
      rewrite not_elem_of_cons. split; [congruence|done].
Qed.

(** Putting the separator back between the pieces gives the string. *)
Lemma split_round_trip (sep : N) (s : jsstring) :
  foldr (λ p acc, match acc with
                  | None => Some p
                  | Some rest => Some (p ++ sep :: rest)
                  end) None (split sep s)
  = Some s.
Proof.
  induction s as [|c s IH]; simpl; [done|].
  case_bool_decide as Hc.
  - simpl. rewrite IH. by subst.
  - destruct (split_pieces_have_no_separator sep s) as [_ Hne].
    destruct (split sep s) as [|p ps]; [done|]. simpl in *.
    destruct (foldr _ None ps); by simplify_eq.
Qed.

Lemma join_length (l : list (option N)) : (length (join l) ≤ length l)%nat.
Proof.
  unfold join. induction l as [|[c|] l IH]; [done| |];
    rewrite bind_cons, length_app; simpl; lia.
Qed.

Lemma elem_of_join (l : list (option N)) (c : N) : c ∈ join l → Some c ∈ l.
Proof.
  unfold join. intros (o & Hc & Ho)%list_elem_of_bind.
  destruct o as [c'|]; [|by apply not_elem_of_nil in Hc].
  apply list_elem_of_singleton in Hc as ->. done.
Qed.

(** X21.  The initials, before upper-casing, are at most two code units
    and never contain a space; a name that starts with something else
    than a space gives initials that start with its first code unit; a
    missing or empty name gives a question mark. *)
Theorem Avatar_initials_shape (name : option jsstring) :
  (length (initials_of name) ≤ 2)%nat
  ∧ (32%N ∉ initials_of name)
  ∧ (∀ c s, name = Some (c :: s) → c ≠ 32%N → head (initials_of name) = Some c)
  ∧ (name = None ∨ name = Some [] → initials_of name = js "?").
Proof.
  unfold initials_of. split_and!.
  - etrans; [apply join_length|]. rewrite length_take. lia.
  - intros Hin%elem_of_join.
    eapply elem_of_sublist in Hin; [|apply sublist_take].
    apply list_elem_of_fmap in Hin as (p & Hp & Hsplit).
    match type of Hsplit with _ ∈ split _ ?n =>
      destruct (split_pieces_have_no_separator 32%N n) as [Hall _] end.
    rewrite Forall_forall in Hall. apply (Hall p Hsplit).
    destruct p as [|c p]; simplify_eq/=. left.
  - intros c s -> Hc. simpl. rewrite bool_decide_eq_false_2 by done.
    destruct (split_pieces_have_no_separator 32%N s) as [_ Hne].
    by destruct (split 32%N s) as [|p ps].
  - by intros [->| ->].
Qed.

End AvatarFacts.

(** ** The properties above at sample inputs *)

Section MoreRuns.
Import Sample Sample2.

Lemma send_answers_commute_witness :
  ChatView.messages
    (ChatView.send_resolved (ChatView.optimistic alice conv9 1000 (js "a"))
       (confirmed 101 alice "a")
       (ChatView.send_resolved (ChatView.optimistic alice conv9 1001 (js "b"))
          (confirmed 102 alice "b")
          (ChatView.send_begin alice conv9 1001 (js "b")
             (ChatView.send_begin alice conv9 1000 (js "a") ChatView.initial))))
  = [confirmed 101 alice "a"; confirmed 102 alice "b"]
  ∧ ChatView.send_resolved (ChatView.optimistic alice conv9 1000 (js "a"))
      (confirmed 101 alice "a")
      (ChatView.send_resolved (ChatView.optimistic alice conv9 1001 (js "b"))
         (confirmed 102 alice "b")
         (ChatView.send_begin alice conv9 1001 (js "b")
            (ChatView.send_begin alice conv9 1000 (js "a") ChatView.initial)))
    = ChatView.send_resolved (ChatView.optimistic alice conv9 1001 (js "b"))
        (confirmed 102 alice "b")
        (ChatView.send_resolved (ChatView.optimistic alice conv9 1000 (js "a"))
           (confirmed 101 alice "a")
           (ChatView.send_begin alice conv9 1001 (js "b")
              (ChatView.send_begin alice conv9 1000 (js "a") ChatView.initial))).
Proof.
  split; [reflexivity|].
  apply send_answers_commute; vm_compute; discriminate.
Defined.

Lemma confirmed_in_send_order_witness :
  ChatView.messages
    (ChatView.send_resolved (ChatView.optimistic alice conv9 1000 (js "a"))
       (confirmed 101 alice "a")
       (ChatView.send_resolved (ChatView.optimistic alice conv9 1001 (js "b"))
          (confirmed 102 alice "b")
          (ChatView.send_begin alice conv9 1001 (js "b")
             (ChatView.send_begin alice conv9 1000 (js "a") ChatView.initial))))
  = [confirmed 101 alice "a"; confirmed 102 alice "b"].
Proof.
  apply (confirmed_in_send_order alice conv9 1000 1001 (js "a") (js "b")
           (confirmed 101 alice "a") (confirmed 102 alice "b") ChatView.initial);
    vm_compute; try discriminate; by intros ?%elem_of_nil.
Defined.

Lemma two_clients_see_mirrored_views_witness :
  ChatView.mine <$> ChatView.view alice bob
    (ChatView.load_resolved [confirmed 100 bob "hey"; confirmed 101 alice "hi"]
       ChatView.initial)
  = negb <$> (ChatView.mine <$> ChatView.view bob alice
      (ChatView.load_resolved [confirmed 100 bob "hey"; confirmed 101 alice "hi"]
         ChatView.initial)).
Proof.
  refine (proj1 (proj2 (proj2 (two_clients_see_mirrored_views alice bob
            [confirmed 100 bob "hey"; confirmed 101 alice "hi"]
            ChatView.initial ChatView.initial _ _)))).
  - vm_compute. discriminate.
  - intros m Hm. apply elem_of_cons in Hm as [->|Hm]; [by right|].
    apply list_elem_of_singleton in Hm as ->. by left.
Defined.

Lemma ChatView_stopped_timer_never_fetches_witness :
  ChatView.tick 0
    (foldl (ChatViewTrace.handle alice)
       (ChatView.cleanup 0 (ChatView.effect conv9 ChatView.initial))
       [ChatViewTrace.Effect conv10; ChatViewTrace.Tick 0; ChatViewTrace.Tick 1])
  = foldl (ChatViewTrace.handle alice)
      (ChatView.cleanup 0 (ChatView.effect conv9 ChatView.initial))
      [ChatViewTrace.Effect conv10; ChatViewTrace.Tick 0; ChatViewTrace.Tick 1].
Proof.
  refine (proj2 (ChatView_stopped_timer_never_fetches alice 0
            (ChatView.effect conv9 ChatView.initial) _ _)).
  simpl. lia.
Defined.

Lemma Home_stopped_run_stays_silent_witness :
  Home.load_resolved 0 [conv9]
    (foldl (HomeTrace.handle alice)
       (Home.cleanup 0 (Home.effect alice Home.initial))
       [HomeTrace.Effect; HomeTrace.Tick 0; HomeTrace.Tick 1])
  = foldl (HomeTrace.handle alice)
      (Home.cleanup 0 (Home.effect alice Home.initial))
      [HomeTrace.Effect; HomeTrace.Tick 0; HomeTrace.Tick 1].
Proof.
  refine (proj2 (Home_stopped_run_stays_silent alice 0
            (Home.effect alice Home.initial) _ [conv9] _ _)); simpl; lia.
Defined.

Lemma rendered_messages_are_grounded_witness :
  ∃ w, Sync.run alice conv9 Sync.initial scenario = Some w
       ∧ ChatView.messages (Sync.chat w) = [confirmed 101 alice "hi"]
       ∧ (confirmed 101 alice "hi" ∈ Sync.store w
          ∨ ∃ f, f ∈ Sync.flights w ∧ Sync.opt f = confirmed 101 alice "hi").
Proof.
  eexists. split; [reflexivity|]. split; [reflexivity|].
  apply (rendered_messages_are_grounded alice conv9 scenario); [reflexivity|].
  apply list_elem_of_singleton. reflexivity.
Defined.


Lemma App_Home_iff_witness :
  Profile.App parse_one (Some (js "{}")) = Profile.Home (JObj []).
Proof.
  apply (App_Home_iff parse_one (Some (js "{}")) (JObj [])); [reflexivity|].
  eexists _, _. split_and!; reflexivity.
Defined.

Lemma save_then_reload_witness :
  LocalUser.reload parse_one
    (LocalUser.save stringify_one (JObj []) (LocalUser.start parse_one None))
  = LocalUser.save stringify_one (JObj []) (LocalUser.start parse_one None).
Proof.
  refine (proj1 (save_then_reload parse_one stringify_one (JObj [])
                   (LocalUser.start parse_one None) _ _)).
  - vm_compute. discriminate.
  - reflexivity.
Defined.

Lemma Onboard_one_request_at_a_time_witness :
  ∃ o, Onboard.handle_all (Onboard.initial, 0%nat) onboarding = Some (o, 1%nat)
       ∧ length (Onboard.requests o)
         = (1 + (if Onboard.loading o then 1 else 0))%nat.
Proof.
  eexists. split; [reflexivity|].
  apply (Onboard_one_request_at_a_time onboarding _ 1%nat). reflexivity.
Defined.

Lemma Onboard_names_are_trimmed_witness :
  ∃ name c, createUser (js "ann") (js "#6366F1") = createUser name c
            ∧ name ≠ []
            ∧ (∀ ch, head name = Some ch → is_white_space ch = false)
            ∧ (∀ ch, last name = Some ch → is_white_space ch = false).
Proof.
  eapply (Onboard_names_are_trimmed onboarding _ 1%nat); [reflexivity|].
  apply list_elem_of_singleton. reflexivity.
Defined.

Lemma people_offered_are_the_others_witness :
  PeopleList.people
    (PeopleList.list_resolved alice 0 [alice; bob]
       (PeopleList.effect PeopleList.initial))
  `sublist_of` [alice; bob].
Proof.
  refine (proj1 (people_offered_are_the_others alice 0 [alice; bob]
                   (PeopleList.effect PeopleList.initial) _)).
  reflexivity.
Defined.

Lemma HomeNav_chat_stage_renders_chat_witness :
  ∃ peer conv,
    HomeNav.activeConv
      (foldl (HomeNav.handle alice) HomeNav.initial
         [HomeNav.Click conv9; HomeNav.ClickResolved conv9 [alice; bob]])
    = Some (peer, conv)
    ∧ HomeNav.render
        (foldl (HomeNav.handle alice) HomeNav.initial
           [HomeNav.Click conv9; HomeNav.ClickResolved conv9 [alice; bob]])
      = HomeNav.ChatScreen peer conv.
Proof.
  apply (HomeNav_chat_stage_renders_chat alice
           [HomeNav.Click conv9; HomeNav.ClickResolved conv9 [alice; bob]]).
  reflexivity.
Defined.

(** Two rows clicked before the user listing of the first click is
    there: the chat opens on conversation 9 and, with no step back to
    the list, changes to conversation 10. *)
Lemma conversation_changes_under_the_chat :
  HomeNav.render
    (foldl (HomeNav.handle alice) HomeNav.initial
       [HomeNav.Click conv9; HomeNav.Click conv10;
        HomeNav.ClickResolved conv9 everyone])
  = HomeNav.ChatScreen bob conv9
  ∧ HomeNav.render
      (foldl (HomeNav.handle alice) HomeNav.initial
         [HomeNav.Click conv9; HomeNav.Click conv10;
          HomeNav.ClickResolved conv9 everyone;
          HomeNav.ClickResolved conv10 everyone])
    = HomeNav.ChatScreen carol conv10.
Proof. split; reflexivity. Qed.

End MoreRuns.
